(** * The CPU sampling, smoothing and alerting engine of [monitor]

    A shallow embedding of the Go package [cpu] (plugins/cpu): the ring
    buffered sampler [sample] with its exponential moving average and its
    overlapping-window [movingAvg], the counter rate calculator [rate], the
    constructor [New] and the alert evaluation of its sampling loop.

    Conventions of the embedding.
    - Go's [int] and [int64] are 64-bit two's-complement integers: they are
      integers of [Z] with the wrap-around written out ([wrap]).
    - Go's [float64] is IEEE 754 binary64 with round-to-nearest-even: it is
      Rocq's primitive [float], whose operations are the same functions.
      Each operation is rounded on its own (no fused multiply-add).
    - A slice is a [list]; indexing and slicing check their bounds and panic
      as the Go runtime does.  Code that can panic returns an [outcome].
    - [time.Time] is an integer count of nanoseconds since the zero [Time];
      [time.Duration] is an [int64] count of nanoseconds. *)

From Stdlib Require Import ZArith Floats Lia Bool String.
From Stdlib Require Uint63 Ascii.
From stdpp Require Import base list.

Local Open Scope Z_scope.

(* ===================================================================== *)
(** ** Go integers *)

Definition minInt : Z := - 2 ^ 63.
Definition maxInt : Z := 2 ^ 63 - 1.

Definition is_int (z : Z) : Prop := minInt <= z <= maxInt.

(** Two's-complement wrap-around of a 64-bit result. *)
Definition wrap (z : Z) : Z := (z + 2 ^ 63) mod 2 ^ 64 - 2 ^ 63.

Definition int_add (a b : Z) : Z := wrap (a + b).
Definition int_sub (a b : Z) : Z := wrap (a - b).

(** [x / 2] and [x % 2]: Go's integer division truncates toward zero. *)
Definition int_half (a : Z) : Z := Z.quot a 2.
Definition int_odd (a : Z) : Z := Z.rem a 2.

(* ===================================================================== *)
(** ** Outcomes of code that may panic *)

Inductive panic : Type :=
| IndexOutOfRange
| SliceBoundsOutOfRange
| IntegerDivideByZero
| MakeLenOutOfRange.

(** [Unspecified] stands for a result the Go specification leaves to the
    implementation (a float64 that does not fit the integer type it is
    converted to). *)
Inductive outcome (A : Type) : Type :=
| Ok (a : A)
| Panic (p : panic)
| Unspecified.

Arguments Ok {A} a.
Arguments Panic {A} p.
Arguments Unspecified {A}.

(** Sequencing stops at the first panic ([x ← m; k] below). *)
#[global] Instance outcome_bind : MBind outcome := fun A B k m =>
  match m with
  | Ok a => k a
  | Panic p => Panic p
  | Unspecified => Unspecified
  end.

#[global] Instance outcome_ret : MRet outcome := fun A a => Ok a.

(** A loop over a slice whose body may panic, threading the loop state. *)
Fixpoint foldM {A S : Type} (body : S -> A -> outcome S) (l : list A) (st : S)
  : outcome S :=
  match l with
  | [] => Ok st
  | x :: l' => st' ← body st x; foldM body l' st'
  end.

Definition int_rem (a b : Z) : outcome Z :=
  if b =? 0 then Panic IntegerDivideByZero else Ok (Z.rem a b).

(* ===================================================================== *)
(** ** Slices *)

Definition len {A : Type} (l : list A) : Z := Z.of_nat (length l).

(** [l[i]] *)
Definition index {A : Type} (l : list A) (i : Z) : outcome A :=
  if (0 <=? i) && (i <? len l) then
    match l !! Z.to_nat i with
    | Some x => Ok x
    | None => Panic IndexOutOfRange
    end
  else Panic IndexOutOfRange.

(** [l[i] = x] *)
Definition store {A : Type} (l : list A) (i : Z) (x : A) : outcome (list A) :=
  if (0 <=? i) && (i <? len l) then Ok (<[Z.to_nat i := x]> l)
  else Panic IndexOutOfRange.

(** [l[i:j]], for a slice whose capacity is its length. *)
Definition slice {A : Type} (l : list A) (i j : Z) : outcome (list A) :=
  if (0 <=? i) && (i <=? j) && (j <=? len l)
  then Ok (take (Z.to_nat (j - i)) (drop (Z.to_nat i) l))
  else Panic SliceBoundsOutOfRange.

(** [maxAlloc] of runtime/malloc.go, the most bytes one allocation may ask
    for: 2^48 on linux/amd64. *)
Definition maxAlloc : Z := 2 ^ 48.

(** [make([]T, n)] for elements of [size] bytes with zero value [z]:
    [makeslice] panics with a length out of range when [n] is negative or
    [n * size] exceeds [maxAlloc].  Memory is not modelled beyond that
    limit: an allocation within it that the machine cannot serve ends the
    program with a fatal error, which is no panic, and [Ok] is the slice
    of an allocation that was served. *)
Definition make {A : Type} (size : Z) (z : A) (n : Z) : outcome (list A) :=
  if (0 <=? n) && (n * size <=? maxAlloc)
  then Ok (replicate (Z.to_nat n) z)
  else Panic MakeLenOutOfRange.

(* ===================================================================== *)
(** ** Go float64 *)

(** [float64(z)] for an integer [z]: the nearest double, ties to even. *)
Definition float64 (z : Z) : float :=
  SF2Prim (binary_normalize prec emax z 0 false).

(** The integer part of a finite double, fraction discarded. *)
Definition SFtrunc (x : spec_float) : option Z :=
  match x with
  | S754_zero _ => Some 0
  | S754_finite s m e =>
      let a := match e with
               | Zneg p => Z.shiftr (Zpos m) (Zpos p)
               | _ => Z.shiftl (Zpos m) e
               end in
      Some (if s then - a else a)
  | _ => None
  end.

(** [int64(f)]: truncation toward zero; unspecified when the value does not
    fit (an infinity, a NaN, or out of range). *)
Definition int64 (f : float) : outcome Z :=
  match SFtrunc (Prim2SF f) with
  | Some z => if (minInt <=? z) && (z <=? maxInt) then Ok z else Unspecified
  | None => Unspecified
  end.

(* ===================================================================== *)
(** ** [sample]: ring buffer with moving averages *)

Definition userGauge : Z := 0.
Definition systemGauge : Z := 1.
Definition idleGauge : Z := 2.
Definition niceGauge : Z := 3.

Record sample : Type := mkSample {
  alpha : float;
  expMovingAvg : float;
  values : list float;
  position : Z;
  filled : bool
}.

Definition newSample (alpha ringSize : float) : outcome sample :=
  n ← int64 ringSize;
  vs ← make 8 0%float n;
  Ok {| alpha := alpha; expMovingAvg := 0%float; values := vs;
        position := 0; filled := false |}.

Definition add (s : sample) (v : float) : outcome sample :=
  let ema :=
    if (position s =? 0) && negb (filled s) then v
    else (v * alpha s + expMovingAvg s * (1 - alpha s))%float in
  vs ← store (values s) (position s) v;
  pos ← int_rem (int_add (position s) 1) (len vs);
  Ok {| alpha := alpha s; expMovingAvg := ema; values := vs;
        position := pos;
        filled := if pos =? 0 then true else filled s |}.

(** The local variables [sum], [count] and [avgs] of [movingAvg]. *)
Record avgState : Type := mkAvgState {
  sum : float;
  count : float;
  avgs : list float
}.

(** [sum += v; count += 1] *)
Definition accumulate (st : avgState) (v : float) : avgState :=
  {| sum := (sum st + v)%float; count := (count st + 1)%float; avgs := avgs st |}.

(** The body of [for i := 0; i <= toRange; i++]. *)
Definition window (vals : list float) (subSet : Z) (st : avgState) (i : Z)
  : outcome avgState :=
  w ← slice vals i (int_add i subSet);
  let st' := fold_left accumulate w st in
  Ok {| sum := 0%float; count := 0%float;
        avgs := avgs st' ++ [(sum st' / count st')%float] |}.

Definition movingAvg (s : sample) : outcome float :=
  if len (values s) =? 0 then Ok 0%float
  else
    let subSet := int_add (int_half (len (values s))) (int_odd (len (values s))) in
    let toRange := int_half (len (values s)) in
    let subSet' :=
      if negb (filled s)
      then int_add (int_half (position s)) (int_odd (position s)) else subSet in
    let toRange' := if negb (filled s) then int_half (position s) else toRange in
    st ← foldM (window (values s) subSet') (seqZ 0 (toRange' + 1))
            {| sum := 0%float; count := 0%float; avgs := [] |};
    let st' := fold_left accumulate (avgs st) st in
    Ok (sum st' / count st')%float.

(* ===================================================================== *)
(** ** [CPU]: the counter snapshots and the rate calculator *)

(** A [nil] slice and an empty one both have length 0: an absent snapshot
    is the empty list.  The lock, the gauges of the metrics sink and the
    unused field [lastUpdate] carry no data the rate or the averages read. *)
Record CPU : Type := mkCPU {
  previous : list Z;
  current : list Z;
  currentTotal : Z;
  previousTotal : Z;
  averages : list sample;
  slackURL : string
}.

Record Config : Type := mkConfig {
  Threshold : float;
  SampleRate : Z;
  ReportingInterval : Z;
  SlackURL : string;
  SlackInterval : Z;
  Hostname : string
}.

Definition clear (c : CPU) : CPU :=
  {| previous := []; current := []; currentTotal := 0; previousTotal := 0;
     averages := averages c; slackURL := slackURL c |}.

Definition rate (c : CPU) (name : Z) : outcome float :=
  if len (current c) <=? name then Ok 0%float
  else
    cur ← index (current c) name;
    prev ← index (previous c) name;
    let delta := int_sub cur prev in
    let total := int_sub (currentTotal c) (previousTotal c) in
    if total =? 0 then Ok 0%float
    else Ok (float64 delta / float64 total * 100)%float.

(* ===================================================================== *)
(** ** [New]: the engine and its sampling loop *)

(** [time.Duration.Seconds]: whole seconds plus the nanosecond remainder. *)
Definition Seconds (d : Z) : float :=
  (float64 (Z.quot d 1000000000) + float64 (Z.rem d 1000000000) / 1e9)%float.

Definition New (cfg : Config) : outcome CPU :=
  let alpha := (Seconds (SampleRate cfg) / Seconds (ReportingInterval cfg))%float in
  let ringSize := (Seconds (ReportingInterval cfg) / Seconds (SampleRate cfg))%float in
  u ← newSample alpha ringSize;
  s ← newSample alpha 1%float;
  i ← newSample alpha 1%float;
  Ok {| previous := []; current := []; currentTotal := 0; previousTotal := 0;
        averages := [u; s; i]; slackURL := SlackURL cfg |}.

(** The variables the loop's closure captures. [lastUpdate] starts as the
    zero [Time], instant 0. *)
Record alertState : Type := mkAlertState {
  triggered : bool;
  lastUpdate : Z;
  alertCount : Z;
  resolveCount : Z
}.

Definition initialState : alertState :=
  {| triggered := false; lastUpdate := 0; alertCount := 0; resolveCount := 0 |}.

(** What [postSlack] is handed. *)
Inductive notification : Type :=
| Alert (hostname : string) (avg threshold : float)
| Resolved (hostname : string).

(** The clock readings of one tick: [t_since] is what [time.Since] reads
    (at most one of the two calls is reached in a tick, see
    [emitStep]), [t_now] what [time.Now] returns for [lastUpdate]. *)
Record clock : Type := mkClock {
  t_since : Z;
  t_now : Z
}.

Definition maxDuration : Z := maxInt.
Definition minDuration : Z := minInt.

(** [time.Since(t)] read at instant [now]: [Time.Sub] saturates. *)
Definition Since (now t : Z) : Z :=
  Z.max minDuration (Z.min maxDuration (now - t)).

(** [avg >= cfg.Threshold] *)
Definition breach (cfg : Config) (avg : float) : bool :=
  (Threshold cfg <=? avg)%float.

(** Lines 147-157: the two saturating counters. *)
Definition countStep (cfg : Config) (st : alertState) (avg : float) : alertState :=
  if breach cfg avg then
    {| triggered := triggered st; lastUpdate := lastUpdate st;
       alertCount := if alertCount st <? 3 then int_add (alertCount st) 1
                     else alertCount st;
       resolveCount := 0 |}
  else
    {| triggered := triggered st; lastUpdate := lastUpdate st;
       alertCount := 0;
       resolveCount := if resolveCount st <? 3 then int_add (resolveCount st) 1
                       else resolveCount st |}.

(** Lines 159-167: the emission rule.  [&&] is lazy, so the second
    [time.Since] is read only when [alertCount <> 3] and the first only
    when [alertCount = 3]: one reading per tick. *)
Definition emitStep (cfg : Config) (st : alertState) (avg : float) (clk : clock)
  : alertState * option notification :=
  if (alertCount st =? 3) && (SlackInterval cfg <? Since (t_since clk) (lastUpdate st)) then
    ({| triggered := true; lastUpdate := t_now clk;
        alertCount := alertCount st; resolveCount := resolveCount st |},
     Some (Alert (Hostname cfg) avg (Threshold cfg)))
  else if triggered st && (resolveCount st =? 3)
          && (SlackInterval cfg <? Since (t_since clk) (lastUpdate st)) then
    ({| triggered := false; lastUpdate := t_now clk;
        alertCount := alertCount st; resolveCount := resolveCount st |},
     Some (Resolved (Hostname cfg)))
  else (st, None).

(** The alert evaluation of one tick, lines 147-167. *)
Definition alertStep (cfg : Config) (st : alertState) (tk : float * clock)
  : alertState * option notification :=
  emitStep cfg (countStep cfg st (fst tk)) (fst tk) (snd tk).

(** The alert evaluation over a sequence of ticks: the final state and the
    notifications in tick order ([None] for a silent tick). *)
Fixpoint alertRun (cfg : Config) (st : alertState) (ticks : list (float * clock))
  : alertState * list (option notification) :=
  match ticks with
  | [] => (st, [])
  | tk :: rest =>
      let '(st1, ev) := alertStep cfg st tk in
      let '(st2, evs) := alertRun cfg st1 rest in
      (st2, ev :: evs)
  end.

(** Lines 141-144: feed the three rates to their samples (the samples are
    shared by pointer, so the update is stored back), then read the moving
    average of the user category. *)
Definition feed (c : CPU) (avs : list sample) (i : Z) : outcome (list sample) :=
  s ← index avs i;
  r ← rate c i;
  s' ← add s r;
  store avs i s'.

Definition sampleStep (c : CPU) : outcome (CPU * float) :=
  avs ← foldM (feed c) [userGauge; systemGauge; idleGauge] (averages c);
  u ← index avs userGauge;
  avg ← movingAvg u;
  Ok ({| previous := previous c; current := current c;
         currentTotal := currentTotal c; previousTotal := previousTotal c;
         averages := avs; slackURL := slackURL c |}, avg).

Section Loop.
(** [collect] reads /proc/stat into the snapshots; it is the platform's
    part of the plugin and enters the loop as a parameter. *)
Variable collect : CPU -> CPU.

(** One iteration of [for range time.Tick(cfg.SampleRate)]. *)
Definition tick (cfg : Config) (c : CPU) (st : alertState) (clk : clock)
  : outcome (CPU * alertState * option notification) :=
  '(c', avg) ← sampleStep (collect c);
  let '(st', ev) := alertStep cfg st (avg, clk) in
  Ok (c', st', ev).
End Loop.

(* ===================================================================== *)
(** ** The specification's wording *)

(** The plain average of a list: its sum, added left to right, over the
    number of its elements. *)
Definition plainAverage (l : list float) : float :=
  (fold_left PrimFloat.add l 0 / float64 (len l))%float.

(** The sub-window [buffer[i .. i+n)]. *)
Definition subWindow (buffer : list float) (i n : nat) : list float :=
  take n (drop i buffer).

(** The bucket-average construction over the first [effectiveLen] slots:
    the plain average, over the offsets [0 .. floor(effectiveLen/2)], of the
    plain averages of the sub-windows of [ceil(effectiveLen/2)] slots. *)
Definition windowedAverage (buffer : list float) (effectiveLen : nat) : float :=
  let halfCount := (S effectiveLen / 2)%nat in
  let halfRange := (effectiveLen / 2)%nat in
  plainAverage
    (map (fun i => plainAverage (subWindow buffer i halfCount))
         (seq 0 (S halfRange))).

(** The exponential moving average of a non-empty run of values: the first
    value, then [v*alpha + ema*(1-alpha)] for each later one. *)
Definition emaStep (a ema v : float) : float := (v * a + ema * (1 - a))%float.

Definition emaOf (a v0 : float) (vs : list float) : float :=
  fold_left (emaStep a) vs v0.

(** The specification's rate, on exact integers. *)
Definition specRate (prev cur : list Z) (prevTotal curTotal : Z) (category : nat)
  : option float :=
  p ← prev !! category;
  c ← cur !! category;
  Some (if curTotal =? prevTotal then 0%float
        else (float64 (c - p) / float64 (curTotal - prevTotal) * 100)%float).

(** Rounding to the nearest integer, halves away from zero. *)
Definition SFround (x : spec_float) : option Z :=
  match x with
  | S754_zero _ => Some 0
  | S754_finite s m e =>
      let a := match e with
               | Zneg p => Z.shiftr (Zpos m + Z.shiftl 1 (Zpos p - 1)) (Zpos p)
               | _ => Z.shiftl (Zpos m) e
               end in
      Some (if s then - a else a)
  | _ => None
  end.

(** Observations on notifications and on the history of a run. *)
Definition is_alert (ev : option notification) : bool :=
  match ev with Some (Alert _ _ _) => true | _ => false end.

Definition is_resolved (ev : option notification) : bool :=
  match ev with Some (Resolved _) => true | _ => false end.

(** The state the loop is in after the given ticks, from its start. *)
Definition stateAfter (cfg : Config) (ticks : list (float * clock)) : alertState :=
  fst (alertRun cfg initialState ticks).

(** The breach input of every tick, oldest first. *)
Definition breaches (cfg : Config) (ticks : list (float * clock)) : list bool :=
  map (fun tk => breach cfg (fst tk)) ticks.

(** How many of the first elements of [l] are [b]. *)
Fixpoint lead (b : bool) (l : list bool) : nat :=
  match l with
  | x :: l' => if Bool.eqb x b then S (lead b l') else O
  | [] => O
  end.

(** The number of consecutive inputs equal to [b] that end the history. *)
Definition streak (b : bool) (history : list bool) : nat := lead b (rev history).

(** What [sum / count] is after the two accumulators have run over [l]
    from zero. *)
Definition runningMean (l : list float) : float :=
  let st := fold_left accumulate l {| sum := 0%float; count := 0%float; avgs := [] |} in
  (sum st / count st)%float.

(** [count] after [n] increments from zero. *)
Definition counted (n : nat) : float :=
  Nat.iter n (fun c => (c + 1)%float) 0%float.

(** The samples a fresh sample turns into as values are added. *)
Definition adds (s : sample) (vs : list float) : outcome sample := foldM add vs s.

(** A sample whose [position] is a slot of its ring. *)
Definition in_ring (s : sample) : Prop :=
  0 <= position s < len (values s) /\ len (values s) <= maxInt.

(** A sample that has left its first-sample state: the test
    [position == 0 && !filled] of [add] fails on it. *)
Definition seasoned (s : sample) : Prop :=
  (position s =? 0) && negb (filled s) = false.

(** A double that is not negative (a NaN has no sign). *)
Definition SFnonneg (x : spec_float) : Prop :=
  match x with
  | S754_zero s | S754_infinity s | S754_finite s _ _ => s = false
  | S754_nan => True
  end.

(** A configuration that samples every 2 s and reports every 5 s. *)
Definition everyTwoOfFive : Config :=
  {| Threshold := 80; SampleRate := 2000000000; ReportingInterval := 5000000000;
     SlackURL := ""; SlackInterval := 60000000000; Hostname := "host" |}.

(** The specification's rule for the degenerate cases: for a sample of
    capacity 0, and for one that holds no value yet, [movingAvg] returns a
    zero. *)
Definition degenerateAverageIsZero (s : sample) : Prop :=
  len (values s) = 0 \/ (position s = 0 /\ filled s = false) ->
  exists x, movingAvg s = Ok x /\ (x =? 0)%float = true.

(** The specification's derivation of the user ring's capacity: the ratio
    of the reporting interval to the sample rate, rounded. *)
Definition capacityIsRounded (cfg : Config) : Prop :=
  forall (c : CPU) (u : sample),
    New cfg = Ok c -> averages c !! 0%nat = Some u ->
    SFround (Prim2SF (Seconds (ReportingInterval cfg) / Seconds (SampleRate cfg)))
    = Some (len (values u)).

(** The latest notification among the events of a run, if any. *)
Definition lastNotified (evs : list (option notification)) : option notification :=
  last (omap id evs).

(** The notifications of a run from the start of the loop, oldest first. *)
Definition notifications (cfg : Config) (ticks : list (float * clock))
  : list notification :=
  omap id (snd (alertRun cfg initialState ticks)).

(** The [time.Now] reading of the latest tick that sent a notification, and
    [t0] when none did. *)
Fixpoint lastStamp (ticks : list (float * clock)) (evs : list (option notification))
    (t0 : Z) : Z :=
  match ticks, evs with
  | tk :: ticks', ev :: evs' =>
      lastStamp ticks' evs' (match ev with Some _ => t_now (snd tk) | None => t0 end)
  | _, _ => t0
  end.

(** A sequence of notifications in which every Resolved comes right after
    an Alert; [afterAlert] tells whether the sequence itself does. *)
Fixpoint resolvedFollowsAlert (afterAlert : bool) (ns : list notification) : bool :=
  match ns with
  | [] => true
  | Alert _ _ _ :: rest => resolvedFollowsAlert true rest
  | Resolved _ :: rest => afterAlert && resolvedFollowsAlert false rest
  end.

(** The state of a ring of [c] slots after the values [vs] went in: before
    it is full the values sit in order of arrival ahead of the zeros; once
    full, reading from [position] round the ring gives the last [c] values
    in order of arrival. *)
Definition ringAfter (c : nat) (vs : list float) (s : sample) : Prop :=
  length (values s) = c /\
  ((length vs < c)%nat ->
     position s = Z.of_nat (length vs) /\ filled s = false /\
     values s = vs ++ replicate (c - length vs) 0%float) /\
  ((1 <= c <= length vs)%nat ->
     position s = Z.of_nat (length vs mod c) /\ filled s = true /\
     drop (length vs mod c) (values s) ++ take (length vs mod c) (values s)
     = drop (length vs - c) vs).

(* ===================================================================== *)
(** ** Package [system]: the collection of load and memory figures

    [collect] of plugins/system/collect_linux.go.  What the operating
    system and the libraries do enters as data or as a parameter: the two
    files as what [ioutil.ReadFile] returned ([None] for an error), the
    lines of /proc/meminfo as [bufio.Scanner] delivers them ([scanLines]),
    and [strconv.ParseFloat] as the value it returns, the error dropped as
    the code drops it ([ParseFloat]).  A Go string is a [string] of bytes. *)

Module System.

Import Ascii.
Local Open Scope string_scope.

(** [regexp.MustCompile(" +").Split(s, -1)]: the substrings of [s] between
    the maximal runs of spaces; a run at either end leaves an empty
    substring there, and the empty string gives one empty substring.
    [inRun] tells that the character before [s] was a space. *)
Fixpoint splitRuns (inRun : bool) (s : string) : list string :=
  match s with
  | EmptyString => [EmptyString]
  | String c rest =>
      if Ascii.eqb c " "%char then
        if inRun then splitRuns true rest else EmptyString :: splitRuns true rest
      else
        match splitRuns false rest with
        | p :: ps => String c p :: ps
        | [] => [String c EmptyString]
        end
  end.

Definition Split (s : string) : list string := splitRuns false s.

(** [strings.Split(s, " ")[0]]: what comes before the first space. *)
Fixpoint firstField (s : string) : string :=
  match s with
  | EmptyString => EmptyString
  | String c rest => if Ascii.eqb c " "%char then EmptyString else String c (firstField rest)
  end.

(** The gauges of the plugin, the indices of [s.updaters]. *)
Inductive gauge : Type := loadAvgGauge | memUsageGauge | swapUsageGauge.

(** The local variables the scan of /proc/meminfo fills. *)
Record memStats : Type := mkMemStats {
  mem_total : float;
  mem_free : float;
  swap_free : float;
  swap_total : float;
  buffers : float;
  cached : float
}.

Definition noStats : memStats :=
  {| mem_total := 0; mem_free := 0; swap_free := 0; swap_total := 0;
     buffers := 0; cached := 0 |}.

Section Collect.
Variable ParseFloat : string -> float.
Variable scanLines : string -> list string.

Definition pullFloat64 (str : string) : outcome float :=
  f ← index (Split str) 1;
  Ok (ParseFloat f).

(** The body of [for scanner.Scan()], lines 48-61. *)
Definition scanLine (st : memStats) (str : string) : outcome memStats :=
  if String.prefix "MemTotal" str then
    v ← pullFloat64 str;
    Ok {| mem_total := v; mem_free := mem_free st; swap_free := swap_free st;
          swap_total := swap_total st; buffers := buffers st; cached := cached st |}
  else if String.prefix "MemFree" str then
    v ← pullFloat64 str;
    Ok {| mem_total := mem_total st; mem_free := v; swap_free := swap_free st;
          swap_total := swap_total st; buffers := buffers st; cached := cached st |}
  else if String.prefix "Buffers" str then
    v ← pullFloat64 str;
    Ok {| mem_total := mem_total st; mem_free := mem_free st; swap_free := swap_free st;
          swap_total := swap_total st; buffers := v; cached := cached st |}
  else if String.prefix "Cached" str then
    v ← pullFloat64 str;
    Ok {| mem_total := mem_total st; mem_free := mem_free st; swap_free := swap_free st;
          swap_total := swap_total st; buffers := buffers st; cached := v |}
  else if String.prefix "SwapFree" str then
    v ← pullFloat64 str;
    Ok {| mem_total := mem_total st; mem_free := mem_free st; swap_free := v;
          swap_total := swap_total st; buffers := buffers st; cached := cached st |}
  else if String.prefix "SwapTotal" str then
    v ← pullFloat64 str;
    Ok {| mem_total := mem_total st; mem_free := mem_free st; swap_free := swap_free st;
          swap_total := v; buffers := buffers st; cached := cached st |}
  else Ok st.

(** Lines 64-74: the two usage gauges, each guarded against a zero total. *)
Definition usageUpdates (st : memStats) : list (gauge * float) :=
  [ (memUsageGauge,
     if negb (mem_total st =? 0)%float
     then ((mem_total st - (mem_free st + buffers st + cached st)) / mem_total st * 100)%float
     else 0%float);
    (swapUsageGauge,
     if negb (swap_total st =? 0)%float
     then ((swap_total st - swap_free st) / swap_total st * 100)%float
     else 0%float) ].

(** What one call has done: the [Update]s it made, in order, and whether it
    panicked, in which case the deferred function has recovered, logged and
    called [s.clear()]. *)
Record collected : Type := mkCollected {
  updates : list (gauge * float);
  recovered : bool
}.

Definition collect (loadavg meminfo : option string) : collected :=
  match loadavg with
  | None => {| updates := []; recovered := true |}
  | Some data =>
      let load_avg := ParseFloat (firstField data) in
      match meminfo with
      | None => {| updates := [(loadAvgGauge, load_avg)]; recovered := true |}
      | Some info =>
          match foldM scanLine (scanLines info) noStats with
          | Ok st => {| updates := (loadAvgGauge, load_avg) :: usageUpdates st;
                        recovered := false |}
          | _ => {| updates := [(loadAvgGauge, load_avg)]; recovered := true |}
          end
      end
  end.

End Collect.

Definition space : ascii := " "%char.

(** Whether the string holds a space. *)
Fixpoint hasSpace (s : string) : bool :=
  match s with
  | EmptyString => false
  | String c rest => Ascii.eqb c " "%char || hasSpace rest
  end.

(** [k] spaces. *)
Fixpoint spaces (k : nat) : string :=
  match k with
  | O => EmptyString
  | S k' => String " "%char (spaces k')
  end.

(** The six names the scan looks for at the start of a line. *)
Definition wanted (str : string) : bool :=
  String.prefix "MemTotal" str || String.prefix "MemFree" str
  || String.prefix "Buffers" str || String.prefix "Cached" str
  || String.prefix "SwapFree" str || String.prefix "SwapTotal" str.

End System.

(* ===================================================================== *)
(** * Properties *)

(** ** Integers and slices *)

Lemma wrap_id z : is_int z -> wrap z = z.
Proof.
  unfold is_int, wrap, minInt, maxInt. intros H.
  rewrite Z.mod_small; lia.
Qed.

Lemma wrap_is_int z : is_int (wrap z).
Proof.
  unfold is_int, wrap, minInt, maxInt.
  pose proof (Z.mod_pos_bound (z + 2 ^ 63) (2 ^ 64)). lia.
Qed.

Lemma int_sub_zero a b : is_int a -> is_int b -> int_sub a b = 0 <-> a = b.
Proof.
  unfold int_sub, wrap, is_int, minInt, maxInt. intros Ha Hb. split.
  - intros H.
    assert (E : (a - b + 2 ^ 63) mod 2 ^ 64 = 2 ^ 63) by lia.
    destruct (Z_lt_le_dec (a - b) (- 2 ^ 63)) as [Hlt|Hge].
    + replace (a - b + 2 ^ 63) with ((a - b + 2 ^ 63 + 2 ^ 64) + (-1) * 2 ^ 64) in E by lia.
      rewrite Z.mod_add, Z.mod_small in E; lia.
    + destruct (Z_lt_le_dec (a - b) (2 ^ 63)) as [Hlt'|Hge'].
      * rewrite Z.mod_small in E; lia.
      * replace (a - b + 2 ^ 63) with ((a - b - 2 ^ 63) + 1 * 2 ^ 64) in E by lia.
        rewrite Z.mod_add, Z.mod_small in E; lia.
  - intros ->. rewrite Z.sub_diag. reflexivity.
Qed.

Lemma len_nonneg {A} (l : list A) : 0 <= len l.
Proof. unfold len. lia. Qed.

Lemma index_lookup {A} (l : list A) (i : nat) x :
  l !! i = Some x -> index l (Z.of_nat i) = Ok x.
Proof.
  intros H. unfold index, len. pose proof (lookup_lt_Some _ _ _ H).
  rewrite Nat2Z.id, H.
  destruct (0 <=? Z.of_nat i) eqn:E1; [|lia].
  destruct (Z.of_nat i <? Z.of_nat (length l)) eqn:E2; [reflexivity|lia].
Qed.

Lemma index_in_range {A} (l : list A) (i : Z) :
  0 <= i < len l -> exists x, index l i = Ok x.
Proof.
  intros H. unfold index.
  destruct (0 <=? i) eqn:E1; [|lia]. destruct (i <? len l) eqn:E2; [|lia].
  cbn [andb]. destruct (l !! Z.to_nat i) as [x|] eqn:El; [now exists x|].
  apply lookup_ge_None in El. unfold len in H. lia.
Qed.

Lemma index_out_of_range {A} (l : list A) (i : Z) :
  len l <= i -> index l i = Panic IndexOutOfRange.
Proof.
  intros H. unfold index.
  destruct (i <? len l) eqn:E; [lia|]. now rewrite andb_false_r.
Qed.

(* ===================================================================== *)
(** ** The alert evaluation *)

Section AlertEvaluation.
Variable cfg : Config.

Lemma streak_snoc b l x :
  streak b (l ++ [x]) = if Bool.eqb x b then S (streak b l) else O.
Proof. unfold streak. rewrite rev_unit. reflexivity. Qed.

Lemma breaches_snoc ticks tk :
  breaches cfg (ticks ++ [tk]) = breaches cfg ticks ++ [breach cfg (fst tk)].
Proof. unfold breaches. now rewrite map_app. Qed.

Lemma alertRun_app st l1 l2 :
  alertRun cfg st (l1 ++ l2) =
  (fst (alertRun cfg (fst (alertRun cfg st l1)) l2),
   snd (alertRun cfg st l1) ++ snd (alertRun cfg (fst (alertRun cfg st l1)) l2)).
Proof.
  revert st. induction l1 as [|tk l1 IH]; intros st; simpl.
  - now destruct (alertRun cfg st l2).
  - destruct (alertStep cfg st tk) as [st1 ev].
    rewrite IH. destruct (alertRun cfg st1 l1) as [st2 evs]. reflexivity.
Qed.

Lemma alertRun_one st tk :
  alertRun cfg st [tk] = (fst (alertStep cfg st tk), [snd (alertStep cfg st tk)]).
Proof. simpl. now destruct (alertStep cfg st tk). Qed.

Lemma stateAfter_snoc ticks tk :
  stateAfter cfg (ticks ++ [tk]) = fst (alertStep cfg (stateAfter cfg ticks) tk).
Proof. unfold stateAfter. now rewrite alertRun_app, alertRun_one. Qed.

(** Emitting touches neither counter. *)
Lemma emitStep_counts st avg clk :
  alertCount (fst (emitStep cfg st avg clk)) = alertCount st /\
  resolveCount (fst (emitStep cfg st avg clk)) = resolveCount st.
Proof.
  unfold emitStep.
  destruct (_ && _); [now split|]. destruct (_ && _); now split.
Qed.

Lemma int_add_small z : 0 <= z < 3 -> int_add z 1 = z + 1.
Proof.
  intros H. apply wrap_id. unfold is_int, minInt, maxInt. lia.
Qed.

(** The counters after a tick, in terms of those before it. *)
Lemma alertStep_counts st tk :
  0 <= alertCount st <= 3 -> 0 <= resolveCount st <= 3 ->
  let st' := fst (alertStep cfg st tk) in
  alertCount st' = (if breach cfg (fst tk) then Z.min 3 (alertCount st + 1) else 0) /\
  resolveCount st' = (if breach cfg (fst tk) then 0 else Z.min 3 (resolveCount st + 1)).
Proof.
  intros Ha Hr. unfold alertStep. cbv zeta.
  destruct (emitStep_counts (countStep cfg st (fst tk)) (fst tk) (snd tk)) as [-> ->].
  unfold countStep. destruct (breach cfg (fst tk)); simpl; split; try reflexivity.
  - destruct (alertCount st <? 3) eqn:E; [rewrite int_add_small|]; lia.
  - destruct (resolveCount st <? 3) eqn:E; [rewrite int_add_small|]; lia.
Qed.

(** Both counters are the lengths, capped at 3, of the streaks that end the
    history. *)
Lemma counts_are_streaks ticks :
  alertCount (stateAfter cfg ticks)
    = Z.of_nat (Nat.min 3 (streak true (breaches cfg ticks))) /\
  resolveCount (stateAfter cfg ticks)
    = Z.of_nat (Nat.min 3 (streak false (breaches cfg ticks))).
Proof.
  induction ticks as [|tk ticks [IHa IHr]] using rev_ind; [now split|].
  rewrite stateAfter_snoc, breaches_snoc, !streak_snoc.
  destruct (alertStep_counts (stateAfter cfg ticks) tk) as [-> ->]; [lia..|].
  rewrite IHa, IHr. destruct (breach cfg (fst tk)); cbn [Bool.eqb]; split; lia.
Qed.

(** The rule of emission, on any state at all. *)
Lemma emitStep_alert st avg clk :
  is_alert (snd (emitStep cfg st avg clk)) = true <->
  alertCount st = 3 /\ SlackInterval cfg < Since (t_since clk) (lastUpdate st).
Proof.
  unfold emitStep.
  destruct (alertCount st =? 3) eqn:E1;
    destruct (SlackInterval cfg <? Since (t_since clk) (lastUpdate st)) eqn:E2;
    simpl; try (split; [intros _; lia | reflexivity]);
    destruct (_ && _); simpl; split; try discriminate; lia.
Qed.

Lemma countStep_exclusive st avg :
  alertCount (countStep cfg st avg) = 0 \/ resolveCount (countStep cfg st avg) = 0.
Proof. unfold countStep. destruct (breach cfg avg); simpl; auto. Qed.

Lemma emitStep_resolved st avg clk :
  alertCount st = 0 \/ resolveCount st = 0 ->
  is_resolved (snd (emitStep cfg st avg clk)) = true <->
  triggered st = true /\ resolveCount st = 3 /\
  SlackInterval cfg < Since (t_since clk) (lastUpdate st).
Proof.
  intros Hx. unfold emitStep.
  destruct (alertCount st =? 3) eqn:E1;
    destruct (SlackInterval cfg <? Since (t_since clk) (lastUpdate st)) eqn:E2;
    destruct (triggered st); destruct (resolveCount st =? 3) eqn:E3; simpl;
    split; try discriminate; try reflexivity; try lia;
    intros (? & ? & ?); try discriminate; lia.
Qed.
End AlertEvaluation.

Section AlertClaims.
Variable cfg : Config.

Lemma alertStep_alert st tk :
  is_alert (snd (alertStep cfg st tk)) = true <->
  alertCount (fst (alertStep cfg st tk)) = 3 /\
  SlackInterval cfg < Since (t_since (snd tk)) (lastUpdate st).
Proof.
  unfold alertStep. rewrite emitStep_alert.
  destruct (emitStep_counts cfg (countStep cfg st (fst tk)) (fst tk) (snd tk)) as [-> _].
  assert (lastUpdate (countStep cfg st (fst tk)) = lastUpdate st) as ->; [|reflexivity].
  unfold countStep. now destruct (breach cfg (fst tk)).
Qed.

Lemma alertCount_three ticks tk :
  alertCount (fst (alertStep cfg (stateAfter cfg ticks) tk)) = 3 <->
  (3 <= streak true (breaches cfg (ticks ++ [tk])))%nat.
Proof.
  rewrite <- stateAfter_snoc.
  destruct (counts_are_streaks cfg (ticks ++ [tk])) as [-> _]. lia.
Qed.

Lemma resolveCount_three ticks tk :
  resolveCount (fst (alertStep cfg (stateAfter cfg ticks) tk)) = 3 <->
  (3 <= streak false (breaches cfg (ticks ++ [tk])))%nat.
Proof.
  rewrite <- stateAfter_snoc.
  destruct (counts_are_streaks cfg (ticks ++ [tk])) as [_ ->]. lia.
Qed.

Lemma silent_below_three ticks tk :
  (streak true (breaches cfg (ticks ++ [tk])) < 3)%nat ->
  is_alert (snd (alertStep cfg (stateAfter cfg ticks) tk)) = false.
Proof.
  intros H. apply not_true_is_false. rewrite alertStep_alert, alertCount_three. lia.
Qed.

Lemma alertRun_three st tk1 tk2 tk3 :
  snd (alertRun cfg st [tk1; tk2; tk3]) =
  [snd (alertStep cfg st tk1);
   snd (alertStep cfg (fst (alertStep cfg st tk1)) tk2);
   snd (alertStep cfg (fst (alertStep cfg (fst (alertStep cfg st tk1)) tk2)) tk3)].
Proof.
  simpl. destruct (alertStep cfg st tk1) as [s1 e1]. simpl.
  destruct (alertStep cfg s1 tk2) as [s2 e2]. simpl.
  now destruct (alertStep cfg s2 tk3) as [s3 e3].
Qed.

(** C1. On every tick of every run of the loop, an Alert is emitted if and
    only if the count of breaches stands at 3 after the tick's input and
    more than the cooldown [SlackInterval] has elapsed since [lastUpdate];
    the count stands at 3 exactly when the tick ends a streak of at least
    three consecutive breaching ticks; a tick that does not breach resets
    the count to 0 and emits no Alert; and after a history that ends no
    streak, two breaching ticks followed by one that does not breach emit
    no Alert at all. *)
Theorem alert_iff_three_breaches_and_cooldown (ticks : list (float * clock))
    (tk : float * clock) :
  let st := stateAfter cfg ticks in
  let st' := fst (alertStep cfg st tk) in
  let ev := snd (alertStep cfg st tk) in
  (is_alert ev = true <->
     alertCount st' = 3 /\
     SlackInterval cfg < Since (t_since (snd tk)) (lastUpdate st)) /\
  (alertCount st' = 3 <->
     breach cfg (fst tk) = true /\ (2 <= streak true (breaches cfg ticks))%nat) /\
  (breach cfg (fst tk) = false -> alertCount st' = 0 /\ is_alert ev = false) /\
  (forall tk1 tk2 : float * clock,
     streak true (breaches cfg ticks) = 0%nat ->
     breach cfg (fst tk1) = true -> breach cfg (fst tk2) = true ->
     breach cfg (fst tk) = false ->
     Forall (fun e => is_alert e = false) (snd (alertRun cfg st [tk1; tk2; tk]))).
Proof.
  cbv zeta. split; [apply alertStep_alert|]. split; [|split].
  - rewrite alertCount_three, breaches_snoc, streak_snoc.
    destruct (breach cfg (fst tk)); simpl.
    + split; [intros H; split; [reflexivity|lia] | intros [_ H]; lia].
    + split; [lia | intros [H _]; discriminate].
  - intros Hb.
    assert (Hs : streak true (breaches cfg (ticks ++ [tk])) = 0%nat)
      by (rewrite breaches_snoc, streak_snoc, Hb; reflexivity).
    split.
    + rewrite <- stateAfter_snoc.
      destruct (counts_are_streaks cfg (ticks ++ [tk])) as [-> _]. rewrite Hs. reflexivity.
    + apply silent_below_three. lia.
  - intros tk1 tk2 H0 H1 H2 H3. rewrite alertRun_three.
    rewrite <- !stateAfter_snoc.
    repeat apply Forall_cons_2; [..|apply Forall_nil_2]; apply silent_below_three;
      rewrite ?breaches_snoc, ?streak_snoc, ?H0, ?H1, ?H2, ?H3; simpl; lia.
Qed.

(** The rule does not look at [triggered]: while the breach lasts, the
    Alert is sent again each time the cooldown has run out.  Ticks at 0 s,
    2 s, 4 s and 66 s of a breach, cooldown 60 s. *)
Example alert_repeats_after_cooldown :
  let at_ (t : Z) : float * clock :=
    (90%float, {| t_since := 70000000000000000000 + t;
                  t_now := 70000000000000000000 + t |}) in
  snd (alertRun everyTwoOfFive initialState
         [at_ 0; at_ 2000000000; at_ 4000000000; at_ 66000000000])
  = [None; None; Some (Alert "host" 90 80); Some (Alert "host" 90 80)].
Proof. reflexivity. Qed.

End AlertClaims.

Section ResolveClaims.
Variable cfg : Config.

Lemma countStep_keeps st avg :
  triggered (countStep cfg st avg) = triggered st /\
  lastUpdate (countStep cfg st avg) = lastUpdate st.
Proof. unfold countStep. now destruct (breach cfg avg). Qed.

Lemma alertStep_resolved st tk :
  is_resolved (snd (alertStep cfg st tk)) = true <->
  triggered st = true /\ resolveCount (fst (alertStep cfg st tk)) = 3 /\
  SlackInterval cfg < Since (t_since (snd tk)) (lastUpdate st).
Proof.
  unfold alertStep.
  rewrite emitStep_resolved by apply countStep_exclusive.
  destruct (emitStep_counts cfg (countStep cfg st (fst tk)) (fst tk) (snd tk)) as [_ ->].
  destruct (countStep_keeps st (fst tk)) as [-> ->]. reflexivity.
Qed.

(** What a tick does to [triggered] and [lastUpdate], by what it emits. *)
Lemma alertStep_effect st tk :
  match snd (alertStep cfg st tk) with
  | Some (Alert _ _ _) =>
      triggered (fst (alertStep cfg st tk)) = true /\
      lastUpdate (fst (alertStep cfg st tk)) = t_now (snd tk)
  | Some (Resolved _) =>
      triggered (fst (alertStep cfg st tk)) = false /\
      lastUpdate (fst (alertStep cfg st tk)) = t_now (snd tk)
  | None =>
      triggered (fst (alertStep cfg st tk)) = triggered st /\
      lastUpdate (fst (alertStep cfg st tk)) = lastUpdate st
  end.
Proof.
  unfold alertStep, emitStep.
  destruct (_ && _); [now split|]. destruct (_ && _); [now split|].
  apply countStep_keeps.
Qed.

Lemma lastNotified_snoc evs ev :
  lastNotified (evs ++ [ev]) =
  match ev with Some n => Some n | None => lastNotified evs end.
Proof.
  unfold lastNotified. rewrite omap_app. destruct ev as [n|]; simpl.
  - apply last_snoc.
  - now rewrite app_nil_r.
Qed.

(** [triggered] records whether the latest notification was an Alert. *)
Lemma triggered_is_last_alert ticks :
  triggered (stateAfter cfg ticks) =
  is_alert (lastNotified (snd (alertRun cfg initialState ticks))).
Proof.
  induction ticks as [|tk ticks IH] using rev_ind; [reflexivity|].
  rewrite stateAfter_snoc, alertRun_app, alertRun_one. cbn [snd].
  rewrite lastNotified_snoc. fold (stateAfter cfg ticks).
  pose proof (alertStep_effect (stateAfter cfg ticks) tk) as H.
  destruct (snd (alertStep cfg (stateAfter cfg ticks) tk)) as [[h a t|h]|];
    destruct H as [-> _]; [reflexivity..|exact IH].
Qed.

(** C8. On every tick of every run of the loop, a Resolved is emitted if
    and only if [triggered] held before the tick, the count of ticks
    without breach stands at 3 after the tick's input, and more than the
    cooldown has elapsed since [lastUpdate]; that count stands at 3 exactly
    when the tick does not breach and neither did the two before it;
    [triggered] holds exactly when the latest notification was an Alert;
    the emission clears [triggered] and stamps [lastUpdate]; and no
    Resolved is emitted while [triggered] is false. *)
Theorem resolved_iff_triggered_and_three_clear_and_cooldown
    (ticks : list (float * clock)) (tk : float * clock) :
  let st := stateAfter cfg ticks in
  let st' := fst (alertStep cfg st tk) in
  let ev := snd (alertStep cfg st tk) in
  (is_resolved ev = true <->
     triggered st = true /\ resolveCount st' = 3 /\
     SlackInterval cfg < Since (t_since (snd tk)) (lastUpdate st)) /\
  (resolveCount st' = 3 <->
     breach cfg (fst tk) = false /\ (2 <= streak false (breaches cfg ticks))%nat) /\
  (triggered st = true <->
     is_alert (lastNotified (snd (alertRun cfg initialState ticks))) = true) /\
  (is_resolved ev = true ->
     triggered st' = false /\ lastUpdate st' = t_now (snd tk)) /\
  (triggered st = false -> is_resolved ev = false).
Proof.
  cbv zeta. split; [apply alertStep_resolved|]. split; [|split; [|split]].
  - rewrite resolveCount_three, breaches_snoc, streak_snoc.
    destruct (breach cfg (fst tk)); simpl.
    + split; [lia | intros [H _]; discriminate].
    + split; [intros H; split; [reflexivity|lia] | intros [_ H]; lia].
  - now rewrite triggered_is_last_alert.
  - intros H. pose proof (alertStep_effect (stateAfter cfg ticks) tk) as E.
    destruct (snd (alertStep cfg (stateAfter cfg ticks) tk)) as [[h a t|h]|];
      [discriminate|exact E|discriminate].
  - intros H. apply not_true_is_false. rewrite alertStep_resolved.
    intros [H' _]. congruence.
Qed.
End ResolveClaims.

(* ===================================================================== *)
(** ** The accumulators of [movingAvg] *)

Lemma fold_accumulate l st :
  fold_left accumulate l st =
  {| sum := fold_left PrimFloat.add l (sum st);
     count := fold_left (fun c _ => (c + 1)%float) l (count st);
     avgs := avgs st |}.
Proof.
  revert st. induction l as [|v l IH]; intros st; simpl.
  - now destruct st.
  - rewrite IH. reflexivity.
Qed.

Lemma fold_count (l : list float) c :
  fold_left (fun c _ => (c + 1)%float) l c =
  Nat.iter (length l) (fun c => (c + 1)%float) c.
Proof.
  revert c. induction l as [|v l IH]; intros c; [reflexivity|].
  cbn [fold_left length]. rewrite IH, Nat.iter_succ_r. reflexivity.
Qed.

Lemma runningMean_eq l :
  runningMean l = (fold_left PrimFloat.add l 0 / counted (length l))%float.
Proof.
  unfold runningMean, counted. rewrite fold_accumulate. simpl.
  now rewrite fold_count.
Qed.

(** The accumulators start every window and the final pass at zero. *)
Lemma accumulate_from_zero l a :
  let st := fold_left accumulate l {| sum := 0%float; count := 0%float; avgs := a |} in
  (sum st / count st)%float = runningMean l /\ avgs st = a.
Proof.
  cbv zeta. unfold runningMean. rewrite !fold_accumulate. now split.
Qed.

Lemma slice_ok {A} (l : list A) (i n : nat) :
  (i + n <= length l)%nat ->
  slice l (Z.of_nat i) (Z.of_nat i + Z.of_nat n) = Ok (take n (drop i l)).
Proof.
  intros H. unfold slice, len.
  destruct (0 <=? Z.of_nat i) eqn:E1; [|lia].
  destruct (Z.of_nat i <=? Z.of_nat i + Z.of_nat n) eqn:E2; [|lia].
  destruct (Z.of_nat i + Z.of_nat n <=? Z.of_nat (length l)) eqn:E3; [|lia].
  simpl. replace (Z.of_nat i + Z.of_nat n - Z.of_nat i) with (Z.of_nat n) by lia.
  now rewrite !Nat2Z.id.
Qed.

(** One window that lies within the slice. *)
Lemma window_ok (vals : list float) (n i : nat) (a : list float) :
  is_int (len vals) -> (i + n <= length vals)%nat ->
  window vals (Z.of_nat n) {| sum := 0%float; count := 0%float; avgs := a |} (Z.of_nat i)
  = Ok {| sum := 0%float; count := 0%float;
          avgs := a ++ [runningMean (take n (drop i vals))] |}.
Proof.
  intros Hlen Hi. unfold window, int_add.
  rewrite wrap_id by (unfold is_int, len, minInt, maxInt in *; lia).
  rewrite slice_ok by exact Hi. cbn [mbind outcome_bind].
  now destruct (accumulate_from_zero (take n (drop i vals)) a) as [-> ->].
Qed.

(** The window loop, when every window lies within the slice. *)
Lemma windows_ok (vals : list float) (n : nat) :
  is_int (len vals) ->
  forall (offsets : list nat) (a : list float),
    Forall (fun i => (i + n <= length vals)%nat) offsets ->
    foldM (window vals (Z.of_nat n)) (map Z.of_nat offsets)
          {| sum := 0%float; count := 0%float; avgs := a |}
    = Ok {| sum := 0%float; count := 0%float;
            avgs := a ++ map (fun i => runningMean (take n (drop i vals))) offsets |}.
Proof.
  intros Hlen offsets. induction offsets as [|i offsets IH]; intros a Hin.
  - simpl. now rewrite app_nil_r.
  - apply Forall_cons_1 in Hin as [Hi Hrest]. cbn [map foldM].
    rewrite window_ok by assumption. cbn [mbind outcome_bind].
    rewrite IH by exact Hrest. now rewrite <- app_assoc.
Qed.

Lemma seqZ_nat (n : nat) : seqZ 0 (Z.of_nat n) = map Z.of_nat (seq 0 n).
Proof.
  unfold seqZ. rewrite Nat2Z.id. apply list_eq. intros i.
  rewrite !list_lookup_fmap. destruct (seq 0 n !! i); simpl; f_equal. lia.
Qed.

Lemma halves_sum (n : nat) : (n / 2 + S n / 2 = n)%nat.
Proof.
  pose proof (Nat.div_mod_eq n 2). pose proof (Nat.div_mod_eq (S n) 2).
  pose proof (Nat.mod_upper_bound n 2). pose proof (Nat.mod_upper_bound (S n) 2).
  lia.
Qed.

Lemma half_nat (n : nat) :
  is_int (Z.of_nat n) ->
  int_half (Z.of_nat n) = Z.of_nat (n / 2) /\
  int_add (int_half (Z.of_nat n)) (int_odd (Z.of_nat n)) = Z.of_nat (S n / 2).
Proof.
  intros Hn. unfold int_add, int_half, int_odd.
  rewrite Z.quot_div_nonneg, Z.rem_mod_nonneg by lia.
  pose proof (Z.mod_pos_bound (Z.of_nat n) 2 eq_refl) as Hm.
  pose proof (Z.div_mod (Z.of_nat n) 2 ltac:(lia)) as Hd.
  assert (E1 : Z.of_nat (n / 2) = Z.of_nat n / 2) by (now rewrite Nat2Z.inj_div).
  assert (E2 : Z.of_nat (S n / 2) = Z.of_nat n / 2 + Z.of_nat n mod 2).
  { rewrite Nat2Z.inj_div, Nat2Z.inj_succ. change (Z.of_nat 2) with 2.
    symmetry. apply Z.div_unique with (r := 1 - Z.of_nat n mod 2); lia. }
  rewrite wrap_id by (unfold is_int, minInt, maxInt in *; lia).
  split; lia.
Qed.

(** The effective length of a sample: every slot once the ring is filled,
    the slots written so far before that. *)
Lemma movingAvg_buckets (s : sample) (n : nat) :
  len (values s) <> 0 -> is_int (len (values s)) ->
  (if filled s then n = length (values s)
   else position s = Z.of_nat n /\ (n <= length (values s))%nat) ->
  movingAvg s =
  Ok (runningMean
        (map (fun i => runningMean (subWindow (values s) i (S n / 2)))
             (seq 0 (S (n / 2))))).
Proof.
  intros Hne Hint Hn. unfold movingAvg.
  destruct (len (values s) =? 0) eqn:E; [lia|]. cbv zeta.
  assert (Hn' : is_int (Z.of_nat n) /\ (n <= length (values s))%nat).
  { unfold is_int, len, minInt, maxInt in *. destruct (filled s); lia. }
  destruct Hn' as [Hni Hle].
  assert (Hsub : (if negb (filled s)
                  then int_add (int_half (position s)) (int_odd (position s))
                  else int_add (int_half (len (values s))) (int_odd (len (values s))))
                 = Z.of_nat (S n / 2)).
  { destruct (filled s); simpl.
    - subst n. apply half_nat, Hni.
    - destruct Hn as [-> _]. apply half_nat, Hni. }
  assert (Hrange : (if negb (filled s) then int_half (position s)
                    else int_half (len (values s))) = Z.of_nat (n / 2)).
  { destruct (filled s); simpl.
    - subst n. apply half_nat, Hni.
    - destruct Hn as [-> _]. apply half_nat, Hni. }
  rewrite Hsub, Hrange.
  replace (Z.of_nat (n / 2) + 1) with (Z.of_nat (S (n / 2))) by lia.
  rewrite seqZ_nat, windows_ok; [|exact Hint|].
  - cbn [mbind outcome_bind app avgs]. cbv zeta. unfold subWindow.
    now destruct (accumulate_from_zero
      (map (fun i => runningMean (take (S n / 2) (drop i (values s)))) (seq 0 (S (n / 2))))
      (map (fun i => runningMean (take (S n / 2) (drop i (values s)))) (seq 0 (S (n / 2)))))
      as [-> _].
  - apply Forall_forall. intros i Hi. apply list_elem_of_In, in_seq in Hi.
    pose proof (halves_sum n). lia.
Qed.

(* ===================================================================== *)
(** ** Facts of binary64 arithmetic

    The operations of [float] are specified by the functions of
    [SpecFloat] on mantissa and exponent; what the claims need of them is
    proved from that specification. *)

Lemma binary_round_aux_opp s m e l :
  binary_round_aux prec emax (negb s) m e l = SFopp (binary_round_aux prec emax s m e l).
Proof.
  unfold binary_round_aux.
  destruct (shr_fexp prec emax m e l) as [mrs' e'].
  destruct (shr_fexp prec emax _ e' loc_Exact) as [mrs'' e''].
  destruct (shr_m mrs''); try reflexivity.
  now destruct (e'' <=? emax - prec).
Qed.

Lemma binary_round_opp s m e :
  binary_round prec emax (negb s) m e = SFopp (binary_round prec emax s m e).
Proof.
  unfold binary_round. destruct (shl_align _ _ _) as [mz ez].
  apply binary_round_aux_opp.
Qed.

Lemma SFopp_involutive x : SFopp (SFopp x) = x.
Proof. destruct x as [s|s| |s m e]; simpl; now rewrite ?negb_involutive. Qed.

Lemma opp_involutive (x : float) : (- - x)%float = x.
Proof. apply Prim2SF_inj. now rewrite !FloatAxioms.opp_spec, SFopp_involutive. Qed.

Lemma SF2Prim_opp x : SF2Prim (SFopp x) = (- SF2Prim x)%float.
Proof.
  destruct x as [[|]|[|]| |[|] m e]; try reflexivity.
  simpl. now rewrite opp_involutive.
Qed.

Lemma float64_nonneg z :
  0 <= z <= maxInt -> Prim2SF (float64 z) = binary_normalize prec emax z 0 false.
Proof.
  intros H. unfold float64.
  assert (E : Uint63Axioms.to_Z (Uint63Axioms.of_Z z) = z).
  { rewrite Uint63.of_Z_spec. apply Z.mod_small. unfold maxInt in H.
    change Uint63.wB with (2 ^ 63). lia. }
  rewrite <- E at 1 2. rewrite <- of_uint63_spec. now rewrite SF2Prim_Prim2SF.
Qed.

Lemma float64_spec z :
  is_int z -> Prim2SF (float64 z) = binary_normalize prec emax z 0 false.
Proof.
  intros [Hlo Hhi]. destruct (Z_le_gt_dec 0 z) as [H0|H0].
  - apply float64_nonneg. lia.
  - destruct (Z.eq_dec z minInt) as [->|Hne]; [now vm_compute|].
    destruct z as [|p|p]; try lia.
    unfold float64. cbn [binary_normalize].
    rewrite (binary_round_opp false), SF2Prim_opp, FloatAxioms.opp_spec.
    change (SF2Prim (binary_round prec emax false p 0)) with (float64 (Zpos p)).
    rewrite float64_nonneg; [reflexivity|unfold minInt, maxInt in *; lia].
Qed.

Lemma Prim2SF_neg_zero x : Prim2SF x = S754_zero true -> x = neg_zero.
Proof. intros H. apply Prim2SF_inj. now rewrite H. Qed.

Lemma add_zero_l (x : float) : (0 + x)%float = x \/ (x = neg_zero /\ (0 + x)%float = 0%float).
Proof.
  destruct (Prim2SF x) as [[|]|s| |s m e] eqn:E.
  - right. apply Prim2SF_neg_zero in E. subst x. split; reflexivity.
  - left. apply Prim2SF_inj. rewrite add_spec, E. reflexivity.
  - left. apply Prim2SF_inj. rewrite add_spec, E. reflexivity.
  - left. apply Prim2SF_inj. rewrite add_spec, E. reflexivity.
  - left. apply Prim2SF_inj. rewrite add_spec, E. reflexivity.
Qed.

Lemma shr_fexp_canonical m e :
  canonical_mantissa prec emax m e = true ->
  shr_fexp prec emax (Zpos m) e loc_Exact =
  ({| shr_m := Zpos m; shr_r := false; shr_s := false |}, e).
Proof.
  unfold canonical_mantissa, shr_fexp. intros H. apply Z.eqb_eq in H.
  cbn [Zdigits2 shr_record_of_loc]. rewrite H, Z.sub_diag. reflexivity.
Qed.

Lemma round_canonical s m e :
  bounded prec emax m e = true ->
  binary_round_aux prec emax s (Zpos m) e loc_Exact = S754_finite s m e.
Proof.
  unfold bounded. intros H. apply andb_prop in H as [Hc Hb].
  unfold binary_round_aux. rewrite shr_fexp_canonical by exact Hc.
  cbn [shr_m loc_of_shr_record round_nearest_even].
  rewrite shr_fexp_canonical by exact Hc. cbn [shr_m]. now rewrite Hb.
Qed.

Lemma div_one_finite s m e :
  bounded prec emax m e = true ->
  SF64div (S754_finite s m e) (S754_finite false 4503599627370496 (-52)) = S754_finite s m e.
Proof.
  intros Hb. pose proof Hb as Hb'. unfold bounded in Hb'.
  apply andb_prop in Hb' as [Hc Hle].
  unfold canonical_mantissa in Hc. apply Z.eqb_eq in Hc.
  unfold SF64div, SFdiv, SFdiv_core_binary. rewrite xorb_false_r.
  cbn [Zdigits2]. change (Z.pos (digits2_pos 4503599627370496)) with 53.
  set (d := Z.pos (digits2_pos m)) in *.
  assert (Hd : 0 < d) by (unfold d; lia).
  unfold fexp, SpecFloat.emin, prec, emax in *.
  destruct (Z_lt_le_dec (-1074) e) as [Hnorm|Hsub].
  - (* normal numbers: the quotient carries one more bit *)
    replace (Z.min (Z.max (d + e - (53 + -52) - 53) (3 - 1024 - 53)) (e - -52)) with (e - 1) by lia.
    replace (e - -52 - (e - 1)) with 53 by lia.
    rewrite Z.shiftl_mul_pow2 by lia.
    replace (Z.pos m * 2 ^ 53) with (Z.pos m~0 * 4503599627370496) by (change (2 ^ 53) with (2 * 4503599627370496); lia).
    assert (E : Z.div_eucl (Z.pos m~0 * 4503599627370496) 4503599627370496 = (Z.pos m~0, 0)).
    { pose proof (Z.div_mul (Z.pos m~0) 4503599627370496 ltac:(lia)) as Hq.
      pose proof (Z.mod_mul (Z.pos m~0) 4503599627370496 ltac:(lia)) as Hr.
      unfold Z.div, Z.modulo in Hq, Hr.
      destruct (Z.div_eucl _ _) as [q r]. simpl in Hq, Hr. now subst. }
    rewrite E. change (new_location 4503599627370496 0) with loc_Exact.
    unfold binary_round_aux. unfold shr_fexp at 1.
    cbn [Zdigits2 digits2_pos shr_record_of_loc]. fold d.
    unfold fexp, SpecFloat.emin.
    replace (Z.max (Z.pos (Pos.succ (digits2_pos m)) + (e - 1) - 53) (3 - 1024 - 53) - (e - 1)) with 1 by (fold d in Hc |- *; lia).
    cbn [shr SpecFloat.iter_pos shr_1 orb round_nearest_even shr_m loc_of_shr_record].
    replace (e - 1 + 1) with e by lia.
    assert (Hc' : canonical_mantissa 53 1024 m e = true).
    { unfold canonical_mantissa, fexp, SpecFloat.emin. apply Z.eqb_eq. exact Hc. }
    pose proof (shr_fexp_canonical m e Hc') as Hs. unfold prec, emax in Hs. rewrite Hs.
    cbn [shr_m]. now rewrite Hle.
  - (* subnormal numbers and the least exponent *)
    replace (Z.min (Z.max (d + e - (53 + -52) - 53) (3 - 1024 - 53)) (e - -52)) with e by lia.
    replace (e - -52 - e) with 52 by lia.
    rewrite Z.shiftl_mul_pow2 by lia. change (2 ^ 52) with 4503599627370496.
    assert (E : Z.div_eucl (Z.pos m * 4503599627370496) 4503599627370496 = (Z.pos m, 0)).
    { pose proof (Z.div_mul (Z.pos m) 4503599627370496 ltac:(lia)) as Hq.
      pose proof (Z.mod_mul (Z.pos m) 4503599627370496 ltac:(lia)) as Hr.
      unfold Z.div, Z.modulo in Hq, Hr.
      destruct (Z.div_eucl _ _) as [q r]. simpl in Hq, Hr. now subst. }
    rewrite E. change (new_location 4503599627370496 0) with loc_Exact.
    apply (round_canonical s m e Hb).
Qed.

Lemma div_one (x : float) : (x / 1)%float = x.
Proof.
  apply Prim2SF_inj. rewrite div_spec.
  change (Prim2SF 1) with (S754_finite false 4503599627370496 (-52)).
  pose proof (Prim2SF_valid x) as Hv.
  destruct (Prim2SF x) as [s|s| |s m e]; try reflexivity.
  - simpl. now rewrite xorb_false_r.
  - simpl. now rewrite xorb_false_r.
  - apply div_one_finite. exact Hv.
Qed.

(** ** Exact rounding *)

Lemma iter_pos_nat {A} (f : A -> A) n x :
  SpecFloat.iter_pos f n x = Nat.iter (Pos.to_nat n) f x.
Proof.
  revert x. induction n as [n IH|n IH|]; intros x; cbn [SpecFloat.iter_pos].
  - rewrite !IH, Pos2Nat.inj_xI.
    replace (S (2 * Pos.to_nat n)) with (Pos.to_nat n + (Pos.to_nat n + 1))%nat by lia.
    rewrite !Nat.iter_add. reflexivity.
  - rewrite !IH, Pos2Nat.inj_xO.
    replace (2 * Pos.to_nat n)%nat with (Pos.to_nat n + Pos.to_nat n)%nat by lia.
    rewrite Nat.iter_add. reflexivity.
  - reflexivity.
Qed.

Lemma pos_even_half (a b : positive) j :
  0 < j -> Z.pos a = Z.pos b * 2 ^ j ->
  exists a', a = xO a' /\ Z.pos a' = Z.pos b * 2 ^ (j - 1).
Proof.
  intros Hj H.
  replace j with (Z.succ (j - 1)) in H by lia. rewrite Z.pow_succ_r in H by lia.
  destruct a as [a'|a'|].
  - exfalso. lia.
  - exists a'. split; [reflexivity|lia].
  - exfalso. lia.
Qed.

Lemma digits_shift (j : nat) : forall a b : positive,
  Z.pos a = Z.pos b * 2 ^ Z.of_nat j ->
  Z.pos (digits2_pos a) = Z.pos (digits2_pos b) + Z.of_nat j.
Proof.
  induction j as [|j IH]; intros a b H.
  - simpl in H. f_equal. assert (a = b) by lia. subst. lia.
  - destruct (pos_even_half a b (Z.of_nat (S j)) ltac:(lia) H) as (a' & -> & H').
    replace (Z.of_nat (S j) - 1) with (Z.of_nat j) in H' by lia.
    cbn [digits2_pos]. rewrite Pos2Z.inj_succ, (IH a' b H'). lia.
Qed.

Lemma shr_exact (j : nat) : forall a b : positive,
  Z.pos a = Z.pos b * 2 ^ Z.of_nat j ->
  Nat.iter j shr_1 {| shr_m := Z.pos a; shr_r := false; shr_s := false |}
  = {| shr_m := Z.pos b; shr_r := false; shr_s := false |}.
Proof.
  induction j as [|j IH]; intros a b H.
  - simpl in H. simpl. do 2 f_equal. lia.
  - destruct (pos_even_half a b (Z.of_nat (S j)) ltac:(lia) H) as (a' & -> & H').
    replace (Z.of_nat (S j) - 1) with (Z.of_nat j) in H' by lia.
    rewrite Nat.iter_succ_r. cbn [shr_1 orb]. apply IH, H'.
Qed.

Lemma pos_iter_xO (m d : positive) : Z.pos (Pos.iter xO m d) = Z.pos m * 2 ^ Z.pos d.
Proof.
  induction d as [|d IH] using Pos.peano_ind.
  - simpl. lia.
  - rewrite Pos.iter_succ, Pos2Z.inj_xO, IH, Pos2Z.inj_succ, Z.pow_succ_r by lia. lia.
Qed.

(** A value that has a canonical representation rounds to it. *)
Lemma binary_round_exact s (m m' : positive) (e e' : Z) :
  bounded prec emax m' e' = true ->
  (e' <= e /\ Z.pos m' = Z.pos m * 2 ^ (e - e')) \/
  (e <= e' /\ Z.pos m = Z.pos m' * 2 ^ (e' - e)) ->
  binary_round prec emax s m e = S754_finite s m' e'.
Proof.
  intros Hb Hv. pose proof Hb as Hb'. unfold bounded in Hb'.
  apply andb_prop in Hb' as [Hc Hbd]. pose proof Hc as Hcan.
  unfold canonical_mantissa in Hc.
  apply Z.eqb_eq in Hc. unfold binary_round.
  destruct Hv as [[Hle Hm]|[Hle Hm]].
  - (* the mantissa is shifted left to the canonical exponent *)
    pose proof (digits_shift (Z.to_nat (e - e')) m' m) as Hd.
    rewrite Z2Nat.id in Hd by lia. specialize (Hd Hm).
    replace (Z.pos (digits2_pos m) + e) with (Z.pos (digits2_pos m') + e') by (clear - Hd; lia).
    rewrite Hc. unfold shl_align.
    destruct (e' - e) as [|p|p] eqn:Ep; try lia.
    + assert (e = e') by lia. subst e'. rewrite Z.sub_diag in Hm.
      assert (m' = m) by (simpl in Hm; lia). subst m'.
      apply round_canonical, Hb.
    + assert (Hm' : Pos.iter xO m p = m').
      { apply Pos2Z.inj. rewrite pos_iter_xO, Hm.
        replace (e - e') with (Z.pos p) by lia. reflexivity. }
      rewrite Hm'. apply round_canonical, Hb.
  - (* the mantissa ends in zeros that are shifted out *)
    pose proof (digits_shift (Z.to_nat (e' - e)) m m') as Hd.
    rewrite Z2Nat.id in Hd by lia. specialize (Hd Hm).
    replace (Z.pos (digits2_pos m) + e) with (Z.pos (digits2_pos m') + e') by lia.
    rewrite Hc. unfold shl_align.
    destruct (e' - e) as [|p|p] eqn:Ep; try lia.
    + assert (e = e') by lia. subst e'.
      assert (m' = m) by (simpl in Hm; lia). subst m'.
      apply round_canonical, Hb.
    + unfold binary_round_aux. unfold shr_fexp at 1.
      cbn [Zdigits2 shr_record_of_loc].
      replace (Z.pos (digits2_pos m) + e) with (Z.pos (digits2_pos m') + e') by lia.
      rewrite Hc, Ep. cbn [shr].
      rewrite iter_pos_nat, (shr_exact (Pos.to_nat p) m m')
        by (rewrite positive_nat_Z; exact Hm).
      cbn [shr_m loc_of_shr_record round_nearest_even].
      replace (e + Z.pos p) with e' by lia.
      rewrite shr_fexp_canonical by exact Hcan. cbn [shr_m]. now rewrite Hbd.
Qed.

Lemma digits_le (p : positive) : forall k, 0 <= k -> Z.pos p < 2 ^ k ->
  Z.pos (digits2_pos p) <= k.
Proof.
  induction p as [p IH|p IH|]; intros k Hk H.
  - assert (k <> 0) by (intros ->; simpl in H; lia).
    replace k with (Z.succ (k - 1)) in H by lia. rewrite Z.pow_succ_r in H by lia.
    cbn [digits2_pos]. rewrite Pos2Z.inj_succ. specialize (IH (k - 1)). lia.
  - assert (k <> 0) by (intros ->; simpl in H; lia).
    replace k with (Z.succ (k - 1)) in H by lia. rewrite Z.pow_succ_r in H by lia.
    cbn [digits2_pos]. rewrite Pos2Z.inj_succ. specialize (IH (k - 1)). lia.
  - assert (k <> 0) by (intros ->; simpl in H; lia). simpl. lia.
Qed.

(** Every integer of at most 53 bits is a double, with an exponent between
    -52 and 0. *)
Lemma normalize_int (n : Z) :
  0 < n < 2 ^ 53 ->
  exists m' e', bounded prec emax m' e' = true /\ -52 <= e' <= 0 /\
    Z.pos m' = n * 2 ^ (- e') /\
    binary_normalize prec emax n 0 false = S754_finite false m' e'.
Proof.
  intros Hn. destruct n as [|p|p]; try lia.
  pose proof (digits_le p 53 ltac:(lia) ltac:(lia)) as Hd.
  set (d := Z.pos (digits2_pos p)) in *.
  assert (Hd0 : 0 < d) by (unfold d; lia).
  assert (Hpos : 0 < Z.pos p * 2 ^ (53 - d)) by (apply Z.mul_pos_pos; [lia|apply Z.pow_pos_nonneg; lia]).
  exists (Z.to_pos (Z.pos p * 2 ^ (53 - d))), (d - 53).
  assert (Hm : Z.pos (Z.to_pos (Z.pos p * 2 ^ (53 - d))) = Z.pos p * 2 ^ (53 - d))
    by (apply Z2Pos.id, Hpos).
  assert (Hb : bounded prec emax (Z.to_pos (Z.pos p * 2 ^ (53 - d))) (d - 53) = true).
  { unfold bounded, canonical_mantissa. apply andb_true_intro. split.
    - apply Z.eqb_eq.
      pose proof (digits_shift (Z.to_nat (53 - d)) (Z.to_pos (Z.pos p * 2 ^ (53 - d))) p) as Hs.
      rewrite Z2Nat.id in Hs by lia. rewrite (Hs Hm). fold d.
      unfold fexp, SpecFloat.emin, prec, emax. lia.
    - apply Z.leb_le. unfold prec, emax. lia. }
  split; [exact Hb|]. split; [lia|]. split.
  - rewrite Hm. do 2 f_equal. lia.
  - cbn [binary_normalize]. apply binary_round_exact; [exact Hb|].
    left. split; [lia|]. rewrite Hm. do 2 f_equal. lia.
Qed.

Lemma shl_align_fst (m : positive) (e e' : Z) :
  e' <= e -> Z.pos (fst (shl_align m e e')) = Z.pos m * 2 ^ (e - e').
Proof.
  intros H. unfold shl_align. destruct (e' - e) as [|p|p] eqn:E; try lia.
  - replace (e - e') with 0 by lia. simpl. lia.
  - cbn [fst]. rewrite pos_iter_xO. do 2 f_equal. lia.
Qed.

Lemma float64_succ (k : Z) :
  0 <= k -> k + 1 < 2 ^ 53 -> (float64 k + 1)%float = float64 (k + 1).
Proof.
  intros H0 Hk. destruct (Z.eq_dec k 0) as [->|Hne]; [reflexivity|].
  apply Prim2SF_inj.
  rewrite add_spec, !float64_spec by (unfold is_int, minInt, maxInt; lia).
  destruct (normalize_int k ltac:(lia)) as (mk & ek & Hbk & Hek & Hmk & ->).
  destruct (normalize_int (k + 1) ltac:(lia)) as (m' & e' & Hb' & He' & Hm' & ->).
  change (Prim2SF 1) with (S754_finite false 4503599627370496 (-52)).
  unfold SF64add, SFadd. replace (Z.min ek (-52)) with (-52) by lia.
  change (fst (shl_align 4503599627370496 (-52) (-52))) with 4503599627370496%positive.
  cbn [cond_Zopp Z.add binary_normalize].
  apply binary_round_exact; [exact Hb'|]. right. split; [lia|].
  rewrite Pos2Z.inj_add, shl_align_fst, Hmk, Hm' by lia.
  rewrite <- !Z.mul_assoc, <- !Z.pow_add_r by lia.
  replace (- ek + (ek - -52)) with 52 by lia.
  replace (- e' + (e' - -52)) with 52 by lia.
  change (2 ^ 52) with 4503599627370496. lia.
Qed.

Lemma counted_float64 (n : nat) : Z.of_nat n < 2 ^ 53 -> counted n = float64 (Z.of_nat n).
Proof.
  induction n as [|n IH]; intros H; [reflexivity|].
  change (counted (S n)) with (counted n + 1)%float. rewrite IH by lia.
  rewrite float64_succ by lia. f_equal. lia.
Qed.

(* ===================================================================== *)
(** ** The windowed average *)

Lemma runningMean_plainAverage (l : list float) :
  len l < 2 ^ 53 -> runningMean l = plainAverage l.
Proof.
  intros H. rewrite runningMean_eq. unfold plainAverage, len in *.
  now rewrite counted_float64.
Qed.

(** A window depends on nothing beyond the slots it covers. *)
Lemma subWindow_prefix (l1 l2 : list float) (p i k : nat) :
  (i + k <= p)%nat -> take p l1 = take p l2 ->
  subWindow l1 i k = subWindow l2 i k.
Proof.
  intros Hik H. unfold subWindow. rewrite !take_drop_commute. f_equal.
  replace (i + k)%nat with (Nat.min (i + k) p) by lia.
  rewrite <- !take_take. now rewrite H.
Qed.

(** C4. For every sample whose ring is filled, of capacity [n] with
    [1 <= n < 2^53], [movingAvg] is the plain average, over the offsets 0 to
    floor(n/2), of the plain averages of the windows of ceil(n/2) slots that
    start there. *)
Theorem movingAvg_filled_is_bucket_average (s : sample) :
  filled s = true -> 1 <= len (values s) < 2 ^ 53 ->
  movingAvg s = Ok (windowedAverage (values s) (length (values s))).
Proof.
  intros Hf Hlen. set (n := length (values s)).
  assert (Hn : (1 <= n)%nat /\ Z.of_nat n < 2 ^ 53) by (unfold len in Hlen; lia).
  rewrite (movingAvg_buckets s n).
  - f_equal. unfold windowedAverage. rewrite runningMean_plainAverage.
    + f_equal. apply map_ext. intros i. apply runningMean_plainAverage.
      unfold len, subWindow. rewrite length_take, length_drop. fold n. lia.
    + unfold len. rewrite length_map, length_seq.
      pose proof (Nat.div_lt n 2). lia.
  - lia.
  - unfold is_int, minInt, maxInt. lia.
  - now rewrite Hf.
Qed.

(** On the filled ring [4; 2; 3] the bucket average is 2.75, and not the
    plain average 3 of the ring. *)
Lemma movingAvg_filled_is_bucket_average_witness :
  let s := {| alpha := 0.5; expMovingAvg := 3.125; values := [4; 2; 3]%float;
              position := 1; filled := true |} in
  movingAvg s = Ok (windowedAverage (values s) 3) /\
  windowedAverage (values s) 3 = 2.75%float /\
  plainAverage (values s) = 3%float.
Proof.
  cbv zeta. split; [|split; reflexivity].
  apply (movingAvg_filled_is_bucket_average
           {| alpha := 0.5; expMovingAvg := 3.125; values := [4; 2; 3]%float;
              position := 1; filled := true |}); [reflexivity|].
  vm_compute. split; [discriminate|reflexivity].
Defined.

(** C5. For two samples that are not filled, stand at the same position
    [p >= 1] and agree on their first [p] slots, [movingAvg] returns the
    same value, whatever the slots from [p] on hold and however many there
    are; the value is the bucket average of the first [p] slots alone; and
    every window it averages ends at or before slot [p]. *)
Theorem movingAvg_unfilled_ignores_tail (s1 s2 : sample) (p : nat) :
  filled s1 = false -> filled s2 = false ->
  position s1 = Z.of_nat p -> position s2 = Z.of_nat p ->
  (1 <= p)%nat ->
  (p <= length (values s1))%nat -> (p <= length (values s2))%nat ->
  len (values s1) <= maxInt -> len (values s2) <= maxInt ->
  take p (values s1) = take p (values s2) ->
  (exists r, movingAvg s1 = Ok r /\ movingAvg s2 = Ok r) /\
  movingAvg s1 =
    Ok (runningMean
          (map (fun i => runningMean (subWindow (take p (values s1)) i (S p / 2)))
               (seq 0 (S (p / 2))))) /\
  (forall i, (i <= p / 2)%nat -> (i + S p / 2 <= p)%nat).
Proof.
  intros Hf1 Hf2 Hp1 Hp2 Hp Hl1 Hl2 Hm1 Hm2 Hpre.
  assert (Hwin : forall i, (i <= p / 2)%nat -> (i + S p / 2 <= p)%nat).
  { intros i Hi. pose proof (halves_sum p). lia. }
  assert (Hpre1 : forall s : sample,
            map (fun i => runningMean (subWindow (values s) i (S p / 2))) (seq 0 (S (p / 2)))
            = map (fun i => runningMean (subWindow (take p (values s)) i (S p / 2)))
                  (seq 0 (S (p / 2)))).
  { intros s. apply map_ext_in. intros i Hi. apply in_seq in Hi. f_equal.
    apply (subWindow_prefix _ _ p); [apply Hwin; lia|].
    rewrite take_take. f_equal. lia. }
  rewrite (movingAvg_buckets s1 p), (movingAvg_buckets s2 p);
    try (unfold len; lia); try (unfold is_int, minInt, len in *; lia);
    try (rewrite ?Hf1, ?Hf2; split; assumption).
  rewrite (Hpre1 s1), (Hpre1 s2), Hpre.
  split; [eexists; split; reflexivity|]. split; [reflexivity|exact Hwin].
Qed.

Lemma movingAvg_unfilled_ignores_tail_witness :
  exists r,
    movingAvg {| alpha := 0.5; expMovingAvg := 1.5; values := [1; 2; 0]%float;
                 position := 2; filled := false |} = Ok r /\
    movingAvg {| alpha := 0.5; expMovingAvg := 1.5; values := [1; 2; 7; 9]%float;
                 position := 2; filled := false |} = Ok r.
Proof.
  apply (movingAvg_unfilled_ignores_tail
           {| alpha := 0.5; expMovingAvg := 1.5; values := [1; 2; 0]%float;
              position := 2; filled := false |}
           {| alpha := 0.5; expMovingAvg := 1.5; values := [1; 2; 7; 9]%float;
              position := 2; filled := false |} 2);
    try reflexivity; simpl; try lia; vm_compute; discriminate.
Defined.

(* ===================================================================== *)
(** ** [newSample] and [add] *)

Lemma int64_range f z : int64 f = Ok z -> is_int z.
Proof.
  unfold int64. destruct (SFtrunc (Prim2SF f)) as [z'|]; [|discriminate].
  destruct ((minInt <=? z') && (z' <=? maxInt)) eqn:E; [|discriminate].
  intros [= <-]. apply andb_prop in E as [E1 E2]. unfold is_int. lia.
Qed.

Lemma newSample_cases a r n :
  int64 r = Ok n ->
  newSample a r =
  if (0 <=? n) && (n * 8 <=? maxAlloc)
  then Ok {| alpha := a; expMovingAvg := 0%float;
             values := replicate (Z.to_nat n) 0%float;
             position := 0; filled := false |}
  else Panic MakeLenOutOfRange.
Proof.
  intros Hr. unfold newSample. rewrite Hr. cbn [mbind outcome_bind].
  unfold make. now destruct ((0 <=? n) && (n * 8 <=? maxAlloc)).
Qed.

Lemma newSample_inv_len a r s0 :
  newSample a r = Ok s0 ->
  exists n, int64 r = Ok n /\ 0 <= n /\ n * 8 <= maxAlloc /\
    s0 = {| alpha := a; expMovingAvg := 0%float;
            values := replicate (Z.to_nat n) 0%float;
            position := 0; filled := false |}.
Proof.
  intros H. destruct (int64 r) as [n| |] eqn:E.
  - rewrite (newSample_cases a r n E) in H.
    destruct ((0 <=? n) && (n * 8 <=? maxAlloc)) eqn:E0; [|discriminate].
    apply andb_prop in E0 as [E1 E2]. injection H as <-.
    exists n. split; [reflexivity|]. split; [lia|]. split; [lia|reflexivity].
  - unfold newSample in H. rewrite E in H. discriminate.
  - unfold newSample in H. rewrite E in H. discriminate.
Qed.

Lemma newSample_inv a r s0 :
  newSample a r = Ok s0 ->
  exists n, int64 r = Ok n /\ 0 <= n <= maxInt /\
    s0 = {| alpha := a; expMovingAvg := 0%float;
            values := replicate (Z.to_nat n) 0%float;
            position := 0; filled := false |}.
Proof.
  intros H. destruct (newSample_inv_len a r s0 H) as (n & E & H0 & _ & Hs).
  exists n. split; [exact E|]. split; [|exact Hs].
  apply int64_range in E. unfold is_int in E. lia.
Qed.

(** What one [add] does to a sample whose position is in its ring. *)
Lemma add_ok (s : sample) (v : float) :
  in_ring s ->
  exists s', add s v = Ok s' /\
    expMovingAvg s' =
      (if (position s =? 0) && negb (filled s) then v
       else emaStep (alpha s) (expMovingAvg s) v) /\
    alpha s' = alpha s /\
    values s' = <[Z.to_nat (position s) := v]> (values s) /\
    position s' = (position s + 1) mod len (values s) /\
    filled s' = (if position s' =? 0 then true else filled s) /\
    in_ring s'.
Proof.
  intros [Hpos Hmax]. unfold add, store.
  destruct (0 <=? position s) eqn:E1; [|lia].
  destruct (position s <? len (values s)) eqn:E2; [|lia].
  cbn [andb mbind outcome_bind]. unfold int_rem, int_add.
  assert (Hl : len (<[Z.to_nat (position s) := v]> (values s)) = len (values s))
    by (unfold len; now rewrite length_insert).
  rewrite Hl. destruct (len (values s) =? 0) eqn:E3; [lia|].
  cbn [mbind outcome_bind].
  rewrite wrap_id by (unfold is_int, minInt, maxInt in *; lia).
  rewrite Z.rem_mod_nonneg by lia.
  eexists. split; [reflexivity|]. unfold in_ring.
  cbn [expMovingAvg alpha values position filled].
  do 5 (split; [reflexivity|]). rewrite Hl.
  split; [apply Z.mod_pos_bound; lia|exact Hmax].
Qed.

Lemma add_inv (s s' : sample) (v : float) :
  add s v = Ok s' -> 0 <= position s < len (values s).
Proof.
  unfold add, store.
  destruct (0 <=? position s) eqn:E1; [|discriminate].
  destruct (position s <? len (values s)) eqn:E2; [|discriminate]. lia.
Qed.

Lemma add_seasoned (s s' : sample) (v : float) :
  in_ring s -> add s v = Ok s' -> seasoned s'.
Proof.
  intros Hr Ha. destruct (add_ok s v Hr) as (s1 & Ha' & _ & _ & _ & _ & Hf & _).
  rewrite Ha in Ha'. injection Ha' as <-. unfold seasoned.
  rewrite Hf. now destruct (position s' =? 0).
Qed.

(** On the fresh ring of three slots [movingAvg] returns NaN, which is no
    zero. *)
Lemma average_of_fresh_ring_is_not_zero :
  ~ degenerateAverageIsZero
      {| alpha := 0.5; expMovingAvg := 0; values := [0; 0; 0]%float;
         position := 0; filled := false |}.
Proof.
  intros H. destruct H as (x & Hx & Hz); [right; now split|].
  vm_compute in Hx. injection Hx as <-. vm_compute in Hz. discriminate Hz.
Qed.

(** C2 (amended). [movingAvg] returns 0 for every sample of capacity 0.
    For every sample of capacity 1 or more that holds no value yet
    ([position] 0, not [filled]) it returns, without a panic, NaN: the
    quotient 0/0 of its only and empty window; so for the fresh sample of
    capacity 3.  No sample that [add] has returned is in that state, so
    that the loop, which adds before it averages, never gets this NaN. *)
Theorem movingAvg_degenerate :
  (forall s : sample, len (values s) = 0 -> movingAvg s = Ok 0%float) /\
  (forall s : sample,
     1 <= len (values s) <= maxInt -> position s = 0 -> filled s = false ->
     movingAvg s = Ok nan) /\
  (s ← newSample 0.5%float 3%float; movingAvg s) = Ok nan /\
  (forall (s s' : sample) (v : float),
     len (values s) <= maxInt -> add s v = Ok s' ->
     ~ (position s' = 0 /\ filled s' = false)).
Proof.
  split; [|split; [|split]].
  - intros s H. unfold movingAvg. now rewrite H.
  - intros s Hlen Hpos Hf.
    rewrite (movingAvg_buckets s 0); [reflexivity|lia| |].
    + unfold is_int, minInt. lia.
    + rewrite Hf. split; [exact Hpos|lia].
  - reflexivity.
  - intros s s' v Hmax Ha [Hp Hf].
    assert (Hr : in_ring s) by (split; [exact (add_inv s s' v Ha)|exact Hmax]).
    pose proof (add_seasoned s s' v Hr Ha) as Hse. unfold seasoned in Hse.
    rewrite Hp, Hf in Hse. discriminate Hse.
Qed.

(** A run of [add]s on a sample whose position is in its ring goes
    through, and follows the recurrence once the sample is seasoned. *)
Lemma adds_ok (vs : list float) : forall (s : sample) (v0 : float),
  in_ring s ->
  exists s', adds s (v0 :: vs) = Ok s' /\ in_ring s' /\ seasoned s' /\
    alpha s' = alpha s /\
    expMovingAvg s' =
      emaOf (alpha s)
        (if (position s =? 0) && negb (filled s) then v0
         else emaStep (alpha s) (expMovingAvg s) v0) vs.
Proof.
  induction vs as [|v vs IH]; intros s v0 Hr.
  - destruct (add_ok s v0 Hr) as (s1 & Ha & He & Hal & _ & _ & _ & Hr1).
    exists s1. unfold adds. cbn [foldM]. rewrite Ha. cbn [mbind outcome_bind].
    split; [reflexivity|]. split; [exact Hr1|].
    split; [apply (add_seasoned s s1 v0 Hr Ha)|]. split; [exact Hal|exact He].
  - destruct (add_ok s v0 Hr) as (s1 & Ha & He & Hal & _ & _ & _ & Hr1).
    pose proof (add_seasoned s s1 v0 Hr Ha) as Hs1.
    destruct (IH s1 v Hr1) as (s' & Hrun & Hr' & Hs' & Hal' & He').
    exists s'. unfold adds in *. cbn [foldM] in *. rewrite Ha.
    cbn [mbind outcome_bind]. rewrite Hrun.
    split; [reflexivity|]. split; [exact Hr'|]. split; [exact Hs'|].
    split; [congruence|].
    rewrite He'. unfold seasoned in Hs1. rewrite Hs1, Hal, He. reflexivity.
Qed.

(** C6. On a fresh sample of capacity 1 or more, which is recognised as
    fresh by [position = 0] and [filled = false], the first [add] sets the
    moving average to the value added; every run of [add]s goes through,
    leaves a sample on which that test fails, and leaves the moving average
    [emaOf]: the first value folded with [v*alpha + ema*(1-alpha)] over the
    later ones; and one more [add] of [v] then gives
    [v*alpha + ema*(1-alpha)] for the [ema] it found. *)
Theorem ema_recurrence (a r : float) (s0 : sample) (v0 : float) (vs : list float) :
  newSample a r = Ok s0 -> 1 <= len (values s0) ->
  (position s0 = 0 /\ filled s0 = false) /\
  (exists s1, add s0 v0 = Ok s1 /\ expMovingAvg s1 = v0) /\
  (exists s, adds s0 (v0 :: vs) = Ok s /\ seasoned s /\
     expMovingAvg s = emaOf a v0 vs /\
     forall v, exists s', add s v = Ok s' /\
       expMovingAvg s' = (v * a + expMovingAvg s * (1 - a))%float).
Proof.
  intros Hnew Hcap.
  destruct (newSample_inv a r s0 Hnew) as (n & _ & Hn & ->).
  cbn [values position filled] in *.
  set (s0 := {| alpha := a; expMovingAvg := 0%float;
                values := replicate (Z.to_nat n) 0%float;
                position := 0; filled := false |}).
  assert (Hr : in_ring s0).
  { unfold in_ring, s0, len in *. cbn [values position] in *.
    rewrite length_replicate in *. lia. }
  split; [now split|]. split.
  - destruct (add_ok s0 v0 Hr) as (s1 & Ha & He & _). exists s1. now split.
  - destruct (adds_ok vs s0 v0 Hr) as (s & Hrun & Hrs & Hs & Hal & He).
    exists s. split; [exact Hrun|]. split; [exact Hs|]. split; [exact He|].
    intros v. destruct (add_ok s v Hrs) as (s' & Ha & He' & _).
    exists s'. split; [exact Ha|]. rewrite He'. unfold seasoned in Hs.
    rewrite Hs, Hal. reflexivity.
Qed.

Lemma ema_recurrence_witness :
  exists s, adds {| alpha := 0.5; expMovingAvg := 0; values := [0; 0; 0]%float;
                    position := 0; filled := false |} [1; 2; 3; 4]%float = Ok s /\
            expMovingAvg s = 3.125%float.
Proof.
  destruct (ema_recurrence 0.5 3
              {| alpha := 0.5; expMovingAvg := 0; values := [0; 0; 0]%float;
                 position := 0; filled := false |} 1 [2; 3; 4]%float)
    as (_ & _ & s & Hrun & _ & He & _);
    [reflexivity | vm_compute; discriminate |].
  exists s. split; [exact Hrun | exact He].
Defined.

(* ===================================================================== *)
(** ** Signs *)

Lemma binary_round_aux_nonneg m e l : SFnonneg (binary_round_aux prec emax false m e l).
Proof.
  unfold binary_round_aux.
  destruct (shr_fexp prec emax m e l) as [mrs' e'].
  destruct (shr_fexp prec emax _ e' loc_Exact) as [mrs'' e''].
  destruct (shr_m mrs''); simpl; try reflexivity; try exact I.
  now destruct (e'' <=? emax - prec).
Qed.

Lemma binary_normalize_nonneg z e :
  0 <= z -> SFnonneg (binary_normalize prec emax z e false).
Proof.
  intros H. destruct z as [|p|p]; [reflexivity| |lia].
  cbn [binary_normalize]. unfold binary_round.
  destruct (shl_align _ _ _) as [mz ez]. apply binary_round_aux_nonneg.
Qed.

Lemma SFdiv_nonneg x y : SFnonneg x -> SFnonneg y -> SFnonneg (SF64div x y).
Proof.
  destruct x as [sx|sx| |sx mx ex], y as [sy|sy| |sy my ey]; simpl;
    try (intros -> ->; reflexivity); try (intros; exact I).
  intros -> ->. unfold SF64div, SFdiv.
  destruct (SFdiv_core_binary _ _ _ _ _ _) as [[mz ez] lz].
  apply binary_round_aux_nonneg.
Qed.

Lemma SFadd_nonneg x y : SFnonneg x -> SFnonneg y -> SFnonneg (SF64add x y).
Proof.
  destruct x as [sx|sx| |sx mx ex], y as [sy|sy| |sy my ey]; simpl;
    try (intros -> ->; reflexivity); try (intros; exact I).
  intros -> ->. unfold SF64add, SFadd. cbn [cond_Zopp Z.add].
  apply binary_normalize_nonneg. lia.
Qed.

Lemma float64_nonneg_sign z : 0 <= z <= maxInt -> SFnonneg (Prim2SF (float64 z)).
Proof.
  intros H. rewrite float64_nonneg by exact H. apply binary_normalize_nonneg. lia.
Qed.

Lemma Seconds_nonneg d : 0 <= d <= maxInt -> SFnonneg (Prim2SF (Seconds d)).
Proof.
  intros H. unfold Seconds. rewrite add_spec, div_spec.
  pose proof (Z.quot_pos d 1000000000 ltac:(lia) ltac:(lia)) as Hq.
  pose proof (Z.quot_le_upper_bound d 1000000000 d ltac:(lia) ltac:(nia)).
  pose proof (Z.rem_bound_pos d 1000000000 ltac:(lia) ltac:(lia)) as Hr.
  apply SFadd_nonneg.
  - apply float64_nonneg_sign. lia.
  - apply SFdiv_nonneg; [apply float64_nonneg_sign; unfold maxInt in *; lia|reflexivity].
Qed.

Lemma SFtrunc_nonneg x n : SFnonneg x -> SFtrunc x = Some n -> 0 <= n.
Proof.
  destruct x as [s|s| |s m e]; simpl; try discriminate.
  - intros _ [= <-]. lia.
  - intros -> [= <-]. destruct e as [|p|p].
    + apply Z.shiftl_nonneg. lia.
    + apply Z.shiftl_nonneg. lia.
    + apply Z.shiftr_nonneg. lia.
Qed.

(** [SFtrunc] drops the fraction: the magnitude of the result is the
    mantissa divided by the power of two of a negative exponent. *)
Lemma SFtrunc_toward_zero s m p :
  SFtrunc (S754_finite s m (Z.neg p))
  = Some ((if s then -1 else 1) * (Z.pos m / 2 ^ Z.pos p)).
Proof.
  cbn [SFtrunc]. rewrite Z.shiftr_div_pow2 by lia. destruct s; f_equal; lia.
Qed.

Lemma int64_nonneg f n : SFnonneg (Prim2SF f) -> int64 f = Ok n -> 0 <= n.
Proof.
  unfold int64. intros Hs. destruct (SFtrunc (Prim2SF f)) as [z|] eqn:E; [|discriminate].
  destruct (_ && _); [|discriminate]. intros [= <-].
  apply (SFtrunc_nonneg _ _ Hs E).
Qed.

(* ===================================================================== *)
(** ** The rate calculator *)

(** C3. After [clear], and whenever [current] holds no counter for it,
    [rate] returns 0 for every category; but in every state in which
    [previous] is absent and [current] holds a counter for the category,
    [rate] panics with an index out of range, as it does for the user
    category once a first snapshot with 10 user ticks has been read. *)
Theorem rate_previous_absent :
  (forall (c : CPU) (name : Z), 0 <= name -> rate (clear c) name = Ok 0%float) /\
  (forall (c : CPU) (name : Z),
     previous c = [] -> len (current c) <= name -> rate c name = Ok 0%float) /\
  (forall (c : CPU) (name : Z),
     previous c = [] -> 0 <= name < len (current c) ->
     rate c name = Panic IndexOutOfRange) /\
  rate {| previous := []; current := [10; 0; 0; 0]; currentTotal := 10;
          previousTotal := 0; averages := []; slackURL := "" |} userGauge
  = Panic IndexOutOfRange.
Proof.
  split; [|split; [|split]].
  - intros c name H. unfold rate, clear. cbn [current].
    change (len (@nil Z)) with 0.
    destruct (0 <=? name) eqn:E; [reflexivity|lia].
  - intros c name _ H. unfold rate.
    destruct (len (current c) <=? name) eqn:E; [reflexivity|lia].
  - intros c name Hp H. unfold rate.
    destruct (len (current c) <=? name) eqn:E; [lia|].
    destruct (index_in_range (current c) name H) as [x ->]. rewrite Hp.
    cbn [mbind outcome_bind].
    rewrite index_out_of_range by (change (len (@nil Z)) with 0; lia). reflexivity.
  - reflexivity.
Qed.

(** C7. With both snapshots holding a counter for the category, [rate]
    returns 0 when the totals are equal, whatever the counters; otherwise
    it returns the difference of the counters over the difference of the
    totals, times 100, each difference being the 64-bit one; and that is
    the specification's rate on exact integers whenever the two
    differences fit 64 bits; they do for counts and totals that are not
    negative. *)
Theorem rate_of_two_snapshots (c : CPU) (category : nat) (cur prev : Z) :
  current c !! category = Some cur -> previous c !! category = Some prev ->
  is_int (currentTotal c) -> is_int (previousTotal c) ->
  (currentTotal c = previousTotal c -> rate c (Z.of_nat category) = Ok 0%float) /\
  (currentTotal c <> previousTotal c ->
     rate c (Z.of_nat category)
     = Ok (float64 (int_sub cur prev)
           / float64 (int_sub (currentTotal c) (previousTotal c)) * 100)%float) /\
  (is_int (cur - prev) -> is_int (currentTotal c - previousTotal c) ->
     exists r,
       specRate (previous c) (current c) (previousTotal c) (currentTotal c) category
       = Some r /\
       rate c (Z.of_nat category) = Ok r) /\
  (0 <= prev <= maxInt -> 0 <= cur <= maxInt ->
   0 <= previousTotal c -> 0 <= currentTotal c ->
   is_int (cur - prev) /\ is_int (currentTotal c - previousTotal c)).
Proof.
  intros Hc Hp Hct Hpt.
  assert (Hrate : rate c (Z.of_nat category) =
            if int_sub (currentTotal c) (previousTotal c) =? 0 then Ok 0%float
            else Ok (float64 (int_sub cur prev)
                     / float64 (int_sub (currentTotal c) (previousTotal c)) * 100)%float).
  { unfold rate. pose proof (lookup_lt_Some _ _ _ Hc) as Hlt.
    destruct (len (current c) <=? Z.of_nat category) eqn:E; [unfold len in E; lia|].
    rewrite (index_lookup _ _ _ Hc), (index_lookup _ _ _ Hp). reflexivity. }
  pose proof (int_sub_zero _ _ Hct Hpt) as Hz.
  split; [|split; [|split]].
  4: { unfold is_int, minInt, maxInt in *. lia. }
  - intros Heq. rewrite Hrate. apply Hz in Heq. now rewrite Heq.
  - intros Hne. rewrite Hrate.
    destruct (int_sub (currentTotal c) (previousTotal c) =? 0) eqn:E; [|reflexivity].
    apply Z.eqb_eq, Hz in E. contradiction.
  - intros Hd Ht. unfold specRate. rewrite Hp, Hc. cbn [mbind option_bind].
    eexists. split; [reflexivity|]. rewrite Hrate. unfold int_sub.
    rewrite !wrap_id by assumption.
    destruct (currentTotal c =? previousTotal c) eqn:E1;
      destruct (currentTotal c - previousTotal c =? 0) eqn:E2; try reflexivity; lia.
Qed.

Lemma rate_of_two_snapshots_witness :
  rate {| previous := [0; 1; 1; 1]; current := [1; 2; 3; 4]; currentTotal := 10;
          previousTotal := 3; averages := []; slackURL := "" |} 0
  = Ok (float64 1 / float64 7 * 100)%float.
Proof.
  apply (rate_of_two_snapshots
           {| previous := [0; 1; 1; 1]; current := [1; 2; 3; 4]; currentTotal := 10;
              previousTotal := 3; averages := []; slackURL := "" |} 0 1 0);
    try reflexivity; try (vm_compute; split; discriminate).
  simpl. lia.
Defined.

(* ===================================================================== *)
(** ** The constructor *)

Lemma newSample_one a :
  newSample a 1%float = Ok {| alpha := a; expMovingAvg := 0%float; values := [0%float];
                              position := 0; filled := false |}.
Proof. reflexivity. Qed.

(** With sample rate 2 s and reporting interval 5 s the ratio is 2.5,
    which rounds to 3, and the user ring has 2 slots. *)
Lemma capacity_of_ratio_2_5_is_not_3 : ~ capacityIsRounded everyTwoOfFive.
Proof.
  intros H.
  specialize (H _ _ eq_refl eq_refl). vm_compute in H. discriminate.
Qed.

Lemma New_inv (cfg : Config) (c : CPU) :
  New cfg = Ok c ->
  exists u,
    newSample (Seconds (SampleRate cfg) / Seconds (ReportingInterval cfg))
              (Seconds (ReportingInterval cfg) / Seconds (SampleRate cfg)) = Ok u /\
    averages c =
      [u;
       {| alpha := (Seconds (SampleRate cfg) / Seconds (ReportingInterval cfg))%float;
          expMovingAvg := 0%float; values := [0%float]; position := 0; filled := false |};
       {| alpha := (Seconds (SampleRate cfg) / Seconds (ReportingInterval cfg))%float;
          expMovingAvg := 0%float; values := [0%float]; position := 0; filled := false |}].
Proof.
  unfold New. cbv zeta. rewrite !newSample_one.
  destruct (newSample _ _) as [u| |] eqn:E; try discriminate.
  cbn [mbind outcome_bind]. intros [= <-].
  exists u. now split.
Qed.

(** C9 (amended). For every configuration from which [New] returns an
    engine, the ratio [ReportingInterval.Seconds() / SampleRate.Seconds()]
    converts to an [int64] [n] that [make] takes as a length; the samples of
    the three categories have
    [alpha = SampleRate.Seconds() / ReportingInterval.Seconds()]; and the
    capacity of the user ring is [n], the ratio with its fraction
    discarded, so that a ratio of 2.5 yields capacity 2. *)
Theorem New_alpha_and_truncated_capacity (cfg : Config) (c : CPU) :
  New cfg = Ok c ->
  exists n u s i,
    int64 (Seconds (ReportingInterval cfg) / Seconds (SampleRate cfg)) = Ok n /\
    0 <= n /\ n * 8 <= maxAlloc /\
    averages c = [u; s; i] /\
    alpha u = (Seconds (SampleRate cfg) / Seconds (ReportingInterval cfg))%float /\
    alpha s = alpha u /\ alpha i = alpha u /\
    values u = replicate (Z.to_nat n) 0%float /\ len (values u) = n.
Proof.
  intros Hnew. destruct (New_inv cfg c Hnew) as (u & Hu & Hav).
  destruct (newSample_inv_len _ _ u Hu) as (n & Hn & H0 & Hmax & ->).
  exists n. do 3 eexists. split; [exact Hn|]. split; [exact H0|].
  split; [exact Hmax|]. split; [exact Hav|]. cbn [alpha values].
  do 4 (split; [reflexivity|]). unfold len. rewrite length_replicate. lia.
Qed.

Lemma New_alpha_and_truncated_capacity_witness :
  exists c u s i,
    New everyTwoOfFive = Ok c /\ averages c = [u; s; i] /\ len (values u) = 2.
Proof.
  destruct (New everyTwoOfFive) as [c|p|] eqn:E;
    [|vm_compute in E; discriminate E..].
  destruct (New_alpha_and_truncated_capacity everyTwoOfFive c E)
    as (n & u & s & i & Hn & _ & _ & Hav & _ & _ & _ & _ & Hlen).
  vm_compute in Hn. injection Hn as <-.
  exists c, u, s, i. split; [reflexivity|]. split; [exact Hav|exact Hlen].
Defined.

(** A ring of one slot holds the value added last, whatever came before. *)
Lemma add_single (s : sample) (v : float) :
  len (values s) = 1 -> position s = 0 ->
  exists s', add s v = Ok s' /\ values s' = [v] /\ position s' = 0 /\
    filled s' = true.
Proof.
  intros Hl Hp.
  destruct (add_ok s v) as (s' & Ha & _ & _ & Hv & Hpos & Hf & _).
  { unfold in_ring, maxInt. rewrite Hl, Hp. lia. }
  exists s'. split; [exact Ha|]. rewrite Hl, Z.mod_1_r in Hpos.
  rewrite Hpos in Hf. rewrite Hp in Hv.
  destruct (values s) as [|x [|y l]]; try (unfold len in Hl; simpl in Hl; lia).
  now repeat split.
Qed.

Lemma adds_single (vs : list float) : forall s : sample,
  len (values s) = 1 -> position s = 0 ->
  exists s', adds s vs = Ok s' /\ len (values s') = 1 /\ position s' = 0.
Proof.
  induction vs as [|v vs IH]; intros s Hl Hp.
  - exists s. now repeat split.
  - destruct (add_single s v Hl Hp) as (s1 & Ha & Hv & Hp1 & _).
    destruct (IH s1) as (s' & Hrun & Hl' & Hp'); [now rewrite Hv|exact Hp1|].
    exists s'. unfold adds in *. cbn [foldM]. rewrite Ha. now repeat split.
Qed.

Lemma movingAvg_single (v : float) (s : sample) :
  values s = [v] -> filled s = true -> movingAvg s = Ok (0 + v)%float.
Proof.
  intros Hv Hf. rewrite (movingAvg_buckets s 1).
  - rewrite Hv. f_equal. unfold runningMean, subWindow. simpl.
    change (0 + 1)%float with 1%float. rewrite !div_one.
    destruct (add_zero_l (0 + v)%float) as [E|[E _]]; [exact E|].
    exfalso. destruct (add_zero_l v) as [E'|[_ E']]; rewrite E' in E.
    + subst v. discriminate E'.
    + discriminate E.
  - rewrite Hv. discriminate.
  - rewrite Hv. change (len [v]) with 1. unfold is_int, minInt, maxInt. lia.
  - now rewrite Hf, Hv.
Qed.

Lemma foldM_app {A S} (body : S -> A -> outcome S) (l1 l2 : list A) (st : S) :
  foldM body (l1 ++ l2) st = (st' ← foldM body l1 st; foldM body l2 st').
Proof.
  revert st. induction l1 as [|x l1 IH]; intros st; [reflexivity|].
  cbn [app foldM]. destruct (body st x); cbn [mbind outcome_bind]; [apply IH|reflexivity..].
Qed.

(** C10. In every engine [New] builds, the samples of the system and idle
    categories have a ring of one slot; after any run of [add]s that ends
    with [v], [movingAvg] of such a sample returns [v], with the one
    exception that for [v] the negative zero it returns the positive zero,
    which is equal to it as a number. *)
Theorem system_and_idle_average_is_last_value (cfg : Config) (c : CPU) :
  New cfg = Ok c ->
  forall (gauge : Z) (g : sample),
    gauge = systemGauge \/ gauge = idleGauge ->
    averages c !! Z.to_nat gauge = Some g ->
    len (values g) = 1 /\
    forall (vs : list float) (v : float),
      exists g', adds g (vs ++ [v]) = Ok g' /\
        (movingAvg g' = Ok v \/ (v = neg_zero /\ movingAvg g' = Ok 0%float)).
Proof.
  intros Hnew gauge g Hg Hlook.
  destruct (New_inv cfg c Hnew) as (u & _ & Hav). rewrite Hav in Hlook.
  assert (Hgv : values g = [0%float] /\ position g = 0).
  { destruct Hg as [-> | ->]; injection Hlook as <-; now split. }
  destruct Hgv as [Hv Hp].
  assert (Hl : len (values g) = 1) by now rewrite Hv.
  split; [exact Hl|]. intros vs v.
  destruct (adds_single vs g Hl Hp) as (g1 & Hrun & Hl1 & Hp1).
  destruct (add_single g1 v Hl1 Hp1) as (g' & Ha & Hv' & _ & Hf').
  exists g'. split.
  - unfold adds in *. rewrite foldM_app, Hrun. cbn [mbind outcome_bind foldM].
    now rewrite Ha.
  - rewrite (movingAvg_single v g' Hv' Hf').
    destruct (add_zero_l v) as [-> | [-> ->]]; [now left | now right].
Qed.

Lemma system_and_idle_average_is_last_value_witness :
  exists g, New everyTwoOfFive
            = Ok {| previous := []; current := []; currentTotal := 0;
                    previousTotal := 0;
                    averages := [ {| alpha := 0x1.999999999999ap-2; expMovingAvg := 0;
                                     values := [0; 0]%float; position := 0;
                                     filled := false |}; g; g ];
                    slackURL := "" |} /\
            len (values g) = 1.
Proof.
  eexists. split; [reflexivity|].
  eapply (system_and_idle_average_is_last_value everyTwoOfFive _ eq_refl systemGauge);
    [now left | reflexivity].
Defined.

(* ===================================================================== *)
(** * Further properties of the alert evaluation *)

Section AlertInvariants.
Variable cfg : Config.

Lemma streaks_exclusive (l : list bool) :
  (streak true l = 0%nat \/ streak false l = 0%nat) /\
  (streak true l = 0%nat /\ streak false l = 0%nat <-> l = []).
Proof.
  destruct l as [|x l] using rev_ind.
  - split; [now left|]. split; [reflexivity|now split].
  - rewrite !streak_snoc. destruct x; simpl; split; auto.
    + split; [intros [H _]; discriminate | intros H; now destruct l].
    + split; [intros [_ H]; discriminate | intros H; now destruct l].
Qed.

(** Both counters stay between 0 and 3, never stand above 0 together, and
    are both 0 only before the first tick. *)
Theorem counters_saturate_and_exclude (ticks : list (float * clock)) :
  let st := stateAfter cfg ticks in
  0 <= alertCount st <= 3 /\ 0 <= resolveCount st <= 3 /\
  (alertCount st = 0 \/ resolveCount st = 0) /\
  (alertCount st = 0 /\ resolveCount st = 0 <-> ticks = []).
Proof.
  cbv zeta. destruct (counts_are_streaks cfg ticks) as [-> ->].
  destruct (streaks_exclusive (breaches cfg ticks)) as [Hx Hnil].
  split; [lia|]. split; [lia|]. split; [lia|].
  assert (Hb : breaches cfg ticks = [] <-> ticks = []).
  { unfold breaches. split; [apply map_eq_nil|intros ->; reflexivity]. }
  rewrite <- Hb, <- Hnil. lia.
Qed.

Lemma alertRun_lastStamp (ticks : list (float * clock)) : forall st : alertState,
  lastUpdate (fst (alertRun cfg st ticks))
  = lastStamp ticks (snd (alertRun cfg st ticks)) (lastUpdate st).
Proof.
  induction ticks as [|tk ticks IH]; intros st; [reflexivity|].
  cbn [alertRun]. pose proof (alertStep_effect cfg st tk) as He.
  destruct (alertStep cfg st tk) as [st1 ev]. cbn [fst snd] in He.
  specialize (IH st1). destruct (alertRun cfg st1 ticks) as [st2 evs].
  cbn [fst snd lastStamp] in *. rewrite IH.
  destruct ev as [[h a t|h]|]; destruct He as [_ ->]; reflexivity.
Qed.

(** [lastUpdate] is the [time.Now] reading of the latest tick that sent a
    notification (the zero time before any); and a tick sends one, of
    either kind, only if [time.Since] of that reading exceeds the
    cooldown. *)
Theorem notifications_respect_cooldown (ticks : list (float * clock))
    (tk : float * clock) :
  let st := stateAfter cfg ticks in
  let stamp := lastStamp ticks (snd (alertRun cfg initialState ticks)) 0 in
  lastUpdate st = stamp /\
  (snd (alertStep cfg st tk) <> None ->
   SlackInterval cfg < Since (t_since (snd tk)) stamp).
Proof.
  cbv zeta. pose proof (alertRun_lastStamp ticks initialState) as Hs.
  change (lastUpdate initialState) with 0 in Hs. fold (stateAfter cfg ticks) in Hs.
  split; [exact Hs|]. rewrite <- Hs. intros Hev.
  destruct (snd (alertStep cfg (stateAfter cfg ticks) tk)) as [[h a t|h]|] eqn:E;
    [| |contradiction].
  - apply (alertStep_alert cfg (stateAfter cfg ticks) tk). now rewrite E.
  - apply (alertStep_resolved cfg (stateAfter cfg ticks) tk). now rewrite E.
Qed.

Lemma resolvedFollowsAlert_snoc (ns : list notification) (n : notification) :
  forall b : bool,
    resolvedFollowsAlert b (ns ++ [n]) =
    resolvedFollowsAlert b ns &&
    match n with
    | Alert _ _ _ => true
    | Resolved _ => match last ns with
                    | Some m => is_alert (Some m)
                    | None => b
                    end
    end.
Proof.
  induction ns as [|m ns IH]; intros b.
  - destruct n; simpl; now rewrite ?andb_true_r.
  - cbn [app resolvedFollowsAlert]. destruct m as [h a t|h].
    + rewrite IH. destruct n as [h' a' t'|h']; [reflexivity|].
      destruct ns as [|m' ns']; [reflexivity|].
      change (last (Alert h a t :: m' :: ns')) with (last (m' :: ns')).
      destruct (last (m' :: ns')) eqn:El; [reflexivity|].
      apply last_None in El. discriminate.
    + rewrite IH, <- andb_assoc. f_equal. destruct n as [h' a' t'|h']; [reflexivity|].
      destruct ns as [|m' ns']; [reflexivity|].
      change (last (Resolved h :: m' :: ns')) with (last (m' :: ns')).
      destruct (last (m' :: ns')) eqn:El; [reflexivity|].
      apply last_None in El. discriminate.
Qed.

(** In every run the first notification is an Alert, and every Resolved
    comes right after an Alert: two Resolved are never sent in a row. *)
Theorem resolved_only_follows_alert (ticks : list (float * clock)) :
  resolvedFollowsAlert false (notifications cfg ticks) = true.
Proof.
  induction ticks as [|tk ticks IH] using rev_ind; [reflexivity|].
  unfold notifications in *. rewrite alertRun_app, alertRun_one. cbn [snd].
  rewrite omap_app. fold (stateAfter cfg ticks).
  destruct (snd (alertStep cfg (stateAfter cfg ticks) tk)) as [n|] eqn:E.
  - change (omap id [Some n]) with [n].
    rewrite resolvedFollowsAlert_snoc, IH. cbn [andb].
    destruct n as [h a t|h]; [reflexivity|].
    assert (Ht : triggered (stateAfter cfg ticks) = true).
    { apply (alertStep_resolved cfg (stateAfter cfg ticks) tk). now rewrite E. }
    rewrite triggered_is_last_alert in Ht. unfold lastNotified in Ht.
    destruct (last (omap id (snd (alertRun cfg initialState ticks)))); [exact Ht|discriminate].
  - change (omap id [None]) with (@nil notification).
    now rewrite app_nil_r.
Qed.
End AlertInvariants.

Section AlertEdges.
Variable cfg : Config.

Lemma Since_le_max (now t : Z) : Since now t <= maxDuration.
Proof. unfold Since, maxDuration, minDuration, minInt, maxInt. lia. Qed.

Lemma leb_nan_l (x : float) : (nan <=? x)%float = false.
Proof. rewrite leb_spec. reflexivity. Qed.

Lemma leb_nan_r (x : float) : (x <=? nan)%float = false.
Proof. rewrite leb_spec. now destruct (Prim2SF x) as [[|]|[|]| |[|] m e]. Qed.

(** What a tick sends says what the tick saw: an Alert carries the
    configured host name, the tick's average and the threshold, and that
    average is at least the threshold; a Resolved is sent only on a tick
    whose average does not breach.  This holds from any state. *)
Theorem notification_reports_its_tick (st : alertState) (tk : float * clock) :
  match snd (alertStep cfg st tk) with
  | Some (Alert h a t) =>
      h = Hostname cfg /\ a = fst tk /\ t = Threshold cfg /\ (t <=? a)%float = true
  | Some (Resolved h) => h = Hostname cfg /\ breach cfg (fst tk) = false
  | None => True
  end.
Proof.
  unfold alertStep, emitStep, countStep, breach.
  destruct (Threshold cfg <=? fst tk)%float eqn:Eb; cbn [alertCount resolveCount triggered].
  - destruct (_ && _); [now repeat split|].
    change (0 =? 3) with false. rewrite andb_false_r. exact I.
  - change (0 =? 3) with false. cbn [andb]. destruct (_ && _); [now split|exact I].
Qed.

(** A tick whose average is NaN never breaches: from any state it resets
    the count of breaches to 0 and sends no Alert. *)
Theorem nan_average_never_alerts (st : alertState) (clk : clock) :
  breach cfg nan = false /\
  alertCount (fst (alertStep cfg st (nan, clk))) = 0 /\
  is_alert (snd (alertStep cfg st (nan, clk))) = false.
Proof.
  assert (Hb : breach cfg nan = false) by apply leb_nan_r.
  split; [exact Hb|]. unfold alertStep. cbn [fst snd].
  pose proof (emitStep_counts cfg (countStep cfg st nan) nan clk) as [Ha _].
  assert (H0 : alertCount (countStep cfg st nan) = 0)
    by (unfold countStep; now rewrite Hb).
  split; [now rewrite Ha|].
  apply not_true_is_false. rewrite emitStep_alert, H0. intros [H _]. discriminate.
Qed.

Lemma silent_run (ticks : list (float * clock)) : forall st : alertState,
  (forall st' tk, triggered st' = false -> In tk ticks ->
     alertStep cfg st' tk = (countStep cfg st' (fst tk), None)) ->
  triggered st = false ->
  Forall (fun ev => ev = None) (snd (alertRun cfg st ticks)).
Proof.
  induction ticks as [|tk ticks IH]; intros st Hstep Ht; [apply Forall_nil_2|].
  cbn [alertRun]. rewrite (Hstep st tk Ht (or_introl eq_refl)).
  specialize (IH (countStep cfg st (fst tk))).
  destruct (alertRun cfg (countStep cfg st (fst tk)) ticks) as [st2 evs].
  cbn [snd] in *. apply Forall_cons_2; [reflexivity|]. apply IH.
  - intros st' tk' Ht' Hin. apply Hstep; [exact Ht'|now right].
  - destruct (countStep_keeps cfg st (fst tk)) as [-> _]. exact Ht.
Qed.

(** With a NaN threshold no average breaches, and no run of the loop ever
    sends a notification. *)
Theorem nan_threshold_never_notifies (ticks : list (float * clock)) :
  Threshold cfg = nan ->
  (forall avg, breach cfg avg = false) /\
  Forall (fun ev => ev = None) (snd (alertRun cfg initialState ticks)).
Proof.
  intros Hn.
  assert (Hb : forall avg, breach cfg avg = false)
    by (intros avg; unfold breach; rewrite Hn; apply leb_nan_l).
  split; [exact Hb|]. apply silent_run; [|reflexivity].
  intros st' tk Ht _. unfold alertStep, emitStep.
  assert (H0 : alertCount (countStep cfg st' (fst tk)) = 0)
    by (unfold countStep; now rewrite Hb).
  destruct (countStep_keeps cfg st' (fst tk)) as [Htr _].
  rewrite H0, Htr, Ht. reflexivity.
Qed.

(** With the cooldown at the largest duration, [time.Since] never exceeds
    it, and no run of the loop ever sends a notification. *)
Theorem maximal_cooldown_never_notifies (ticks : list (float * clock)) :
  maxDuration <= SlackInterval cfg ->
  Forall (fun ev => ev = None) (snd (alertRun cfg initialState ticks)).
Proof.
  intros Hmax. apply silent_run; [|reflexivity].
  intros st' tk _ _. unfold alertStep, emitStep.
  pose proof (Since_le_max (t_since (snd tk)) (lastUpdate (countStep cfg st' (fst tk)))).
  destruct (SlackInterval cfg <? Since _ _) eqn:E; [lia|].
  now rewrite !andb_false_r.
Qed.
End AlertEdges.

Lemma nan_threshold_never_notifies_witness :
  Forall (fun ev => ev = None)
    (snd (alertRun
            {| Threshold := nan; SampleRate := 2000000000;
               ReportingInterval := 5000000000; SlackURL := "";
               SlackInterval := 0; Hostname := "host" |}
            initialState
            [(infinity, {| t_since := 70000000000000000000;
                           t_now := 70000000000000000000 |})])).
Proof.
  apply (nan_threshold_never_notifies
           {| Threshold := nan; SampleRate := 2000000000;
              ReportingInterval := 5000000000; SlackURL := "";
              SlackInterval := 0; Hostname := "host" |}). reflexivity.
Defined.

Lemma maximal_cooldown_never_notifies_witness :
  Forall (fun ev => ev = None)
    (snd (alertRun
            {| Threshold := 80; SampleRate := 2000000000;
               ReportingInterval := 5000000000; SlackURL := "";
               SlackInterval := 9223372036854775807; Hostname := "host" |}
            initialState
            [(90%float, {| t_since := 70000000000000000000;
                           t_now := 70000000000000000000 |})])).
Proof.
  apply (maximal_cooldown_never_notifies
           {| Threshold := 80; SampleRate := 2000000000;
              ReportingInterval := 5000000000; SlackURL := "";
              SlackInterval := 9223372036854775807; Hostname := "host" |}).
  vm_compute. discriminate.
Defined.

(* ===================================================================== *)
(** * Further properties of the ring *)

Lemma adds_snoc (s s' : sample) (vs : list float) (v : float) :
  adds s (vs ++ [v]) = Ok s' -> exists s1, adds s vs = Ok s1 /\ add s1 v = Ok s'.
Proof.
  unfold adds. rewrite foldM_app.
  destruct (foldM add vs s) as [s1| |]; try discriminate.
  cbn [mbind outcome_bind foldM]. intros H. exists s1. split; [reflexivity|].
  now destruct (add s1 v).
Qed.

Lemma succ_mod (n c : nat) :
  (1 <= c)%nat ->
  (S n mod c)%nat = if (S (n mod c) =? c)%nat then 0%nat else S (n mod c).
Proof.
  intros Hc. pose proof (Nat.div_mod_eq n c) as Hn.
  pose proof (Nat.mod_upper_bound n c ltac:(lia)) as Hp.
  destruct (S (n mod c) =? c)%nat eqn:E.
  - apply Nat.eqb_eq in E. symmetry.
    apply (Nat.mod_unique (S n) c (S (n / c)) 0); lia.
  - apply Nat.eqb_neq in E. symmetry.
    apply (Nat.mod_unique (S n) c (n / c) (S (n mod c))); lia.
Qed.

Lemma ringAfter_add (c : nat) (vs : list float) (s1 s : sample) (v : float) :
  len (values s1) <= maxInt ->
  ringAfter c vs s1 -> add s1 v = Ok s -> ringAfter c (vs ++ [v]) s.
Proof.
  intros Hmax (Hlen & Hpart & Hfull) Ha.
  pose proof (add_inv s1 s v Ha) as Hin.
  destruct (add_ok s1 v (conj Hin Hmax)) as (s' & Ha' & _ & _ & Hv & Hp & Hf & _).
  rewrite Ha in Ha'. injection Ha' as <-.
  assert (Hc : (1 <= c)%nat) by (unfold len in Hin; lia).
  unfold len in Hp. rewrite Hlen in Hp. unfold ringAfter.
  rewrite Hv, length_insert, length_app. cbn [length]. split; [exact Hlen|].
  destruct (Nat.lt_ge_cases (length vs) c) as [Hlt|Hge].
  - (* the ring was not full *)
    destruct (Hpart Hlt) as (Hpos & Hfil & Hvals). rewrite Hpos, Nat2Z.id in *.
    rewrite Hvals, insert_app_r_alt, Nat.sub_diag by lia.
    destruct (c - length vs)%nat as [|k] eqn:Ek; [lia|]. cbn [replicate insert list_insert].
    split.
    + intros Hlt'. rewrite Hf, Hp.
      rewrite Z.mod_small by lia.
      destruct (Z.of_nat (length vs) + 1 =? 0) eqn:E0; [lia|].
      split; [lia|]. split; [exact Hfil|].
      rewrite <- app_assoc. cbn [app]. do 3 f_equal. lia.
    + intros [_ Hge']. assert (Hk : k = 0%nat) by lia. subst k.
      assert (Hn : (length vs + 1)%nat = c) by lia.
      rewrite Hf, Hp, Hn, Nat.Div0.mod_same.
      replace (Z.of_nat (length vs) + 1) with (Z.of_nat c) by lia.
      rewrite Z.mod_same by lia. cbn [Z.eqb replicate].
      split; [reflexivity|]. split; [reflexivity|].
      rewrite drop_0, take_0, Nat.sub_diag, drop_0, !app_nil_r. reflexivity.
  - (* the ring was full: the oldest value is overwritten *)
    destruct (Hfull (conj Hc Hge)) as (Hpos & Hfil & Hrot).
    set (p := (length vs mod c)%nat) in *.
    assert (Hpc : (p < c)%nat) by (apply Nat.mod_upper_bound; lia).
    rewrite Hpos, Nat2Z.id in *.
    split; [intros Hlt'; lia|]. intros _.
    replace (length vs + 1)%nat with (S (length vs)) by lia.
    rewrite (succ_mod (length vs) c Hc). fold p.
    assert (Hp' : position s = Z.of_nat (if (S p =? c)%nat then 0 else S p)%nat).
    { rewrite Hp. destruct (S p =? c)%nat eqn:E.
      - apply Nat.eqb_eq in E. replace (Z.of_nat p + 1) with (Z.of_nat c) by lia.
        apply Z.mod_same. lia.
      - apply Nat.eqb_neq in E. rewrite Z.mod_small; lia. }
    split; [exact Hp'|]. split.
    { rewrite Hf, Hfil. now destruct (position s =? 0). }
    assert (Hrhs : drop (S (length vs) - c) (vs ++ [v])
                   = drop (S p) (values s1) ++ take p (values s1) ++ [v]).
    { rewrite drop_app_le by lia.
      replace (S (length vs) - c)%nat with ((length vs - c) + 1)%nat by lia.
      rewrite <- drop_drop, <- Hrot, drop_app_le by (rewrite length_drop; lia).
      rewrite drop_drop, <- app_assoc. do 2 f_equal. lia. }
    rewrite Hrhs.
    assert (Hlook : <[p:=v]> (values s1) !! p = Some v)
      by (apply list_lookup_insert_eq; lia).
    destruct (S p =? c)%nat eqn:E.
    + apply Nat.eqb_eq in E. rewrite drop_0, take_0, app_nil_r.
      rewrite (drop_ge (values s1)) by lia. cbn [app].
      rewrite <- (take_ge (<[p:=v]> (values s1)) (S p)) by (rewrite length_insert; lia).
      rewrite (take_S_r _ _ _ Hlook), take_insert_ge by lia. reflexivity.
    + rewrite drop_insert_lt by lia.
      rewrite (take_S_r _ _ _ Hlook), take_insert_ge by lia. reflexivity.
Qed.

Lemma ringAfter_adds (a r : float) (s0 : sample) :
  newSample a r = Ok s0 ->
  forall (vs : list float) (s : sample),
    adds s0 vs = Ok s ->
    ringAfter (length (values s0)) vs s /\ alpha s = a /\ len (values s) <= maxInt.
Proof.
  intros Hnew. destruct (newSample_inv a r s0 Hnew) as (n & _ & Hn & ->).
  cbn [values]. rewrite length_replicate.
  induction vs as [|v vs IH] using rev_ind; intros s Hrun.
  - injection Hrun as <-. unfold ringAfter, len. cbn [values position filled alpha length].
    rewrite length_replicate, Nat.sub_0_r. repeat split; try reflexivity; lia.
  - destruct (adds_snoc _ _ _ _ Hrun) as (s1 & Hrun1 & Ha).
    destruct (IH s1 Hrun1) as (Hring & Hal & Hmax).
    pose proof (ringAfter_add _ _ _ _ _ Hmax Hring Ha) as Hring'.
    split; [exact Hring'|].
    destruct (add_ok s1 v (conj (add_inv _ _ _ Ha) Hmax)) as (s' & Ha' & _ & Hal' & _).
    rewrite Ha in Ha'. injection Ha' as <-. split; [congruence|].
    destruct Hring' as [Hl _]. destruct Hring as [Hl1 _]. unfold len in *. lia.
Qed.

(** After any run of [add]s on a sample made by [newSample], the ring has
    kept its capacity [c] and its [alpha]; before [c] values have gone in
    they sit in order of arrival ahead of the zeros, [position] counts them
    and [filled] is false; from the [c]-th on [filled] is true, [position] is
    the count modulo [c], and reading the ring from [position] round gives
    the last [c] values in order of arrival. *)
Theorem ring_holds_latest_values (a r : float) (s0 s : sample) (vs : list float) :
  newSample a r = Ok s0 -> adds s0 vs = Ok s ->
  let c := length (values s0) in
  let n := length vs in
  length (values s) = c /\ alpha s = a /\
  ((n < c)%nat ->
     position s = Z.of_nat n /\ filled s = false /\
     values s = vs ++ replicate (c - n) 0%float) /\
  ((1 <= c <= n)%nat ->
     position s = Z.of_nat (n mod c) /\ filled s = true /\
     drop (n mod c) (values s) ++ take (n mod c) (values s) = drop (n - c) vs).
Proof.
  intros Hnew Hrun. cbv zeta.
  destruct (ringAfter_adds a r s0 Hnew vs s Hrun) as ((Hl & Hpart & Hfull) & Hal & _).
  split; [exact Hl|]. split; [exact Hal|]. split; assumption.
Qed.

Lemma ring_holds_latest_values_witness :
  let s := {| alpha := 0.5; expMovingAvg := 3.125; values := [4; 2; 3]%float;
              position := 1; filled := true |} in
  position s = Z.of_nat (4 mod 3) /\ filled s = true /\
  drop (4 mod 3) (values s) ++ take (4 mod 3) (values s)
  = drop (4 - 3) [1; 2; 3; 4]%float.
Proof.
  cbv zeta.
  apply (ring_holds_latest_values 0.5 3
           {| alpha := 0.5; expMovingAvg := 0; values := [0; 0; 0]%float;
              position := 0; filled := false |}
           {| alpha := 0.5; expMovingAvg := 3.125; values := [4; 2; 3]%float;
              position := 1; filled := true |}
           [1; 2; 3; 4]%float);
    [vm_compute; reflexivity | vm_compute; reflexivity |].
  cbn [values length]. lia.
Defined.

(** [add] panics exactly when [position] is not a slot of the ring, and
    then with an index out of range: so on every ring of capacity 0; it
    never divides by zero.  Otherwise it succeeds. *)
Theorem add_panics_iff_position_off_ring (s : sample) (v : float) :
  len (values s) <= maxInt ->
  (add s v = Panic IndexOutOfRange <-> ~ (0 <= position s < len (values s))) /\
  (len (values s) = 0 -> add s v = Panic IndexOutOfRange) /\
  ((exists s', add s v = Ok s') <-> 0 <= position s < len (values s)) /\
  add s v <> Panic IntegerDivideByZero.
Proof.
  intros Hmax.
  assert (Hoff : ~ (0 <= position s < len (values s)) -> add s v = Panic IndexOutOfRange).
  { intros H. unfold add, store.
    destruct (0 <=? position s) eqn:E1; [|reflexivity].
    destruct (position s <? len (values s)) eqn:E2; [lia|reflexivity]. }
  assert (Hon : 0 <= position s < len (values s) -> exists s', add s v = Ok s').
  { intros H. destruct (add_ok s v (conj H Hmax)) as (s' & Ha & _). now exists s'. }
  split; [|split; [|split]].
  - split; [|exact Hoff]. intros Hp Hin. destruct (Hon Hin) as [s' Hs]. congruence.
  - intros H0. apply Hoff. lia.
  - split; [|exact Hon]. intros [s' Hs]. apply (add_inv s s' v Hs).
  - destruct (Z_lt_le_dec (position s) 0) as [Hneg|Hnn].
    + rewrite Hoff by lia. discriminate.
    + destruct (Z_lt_le_dec (position s) (len (values s))) as [Hlt|Hge].
      * destruct (Hon (conj Hnn Hlt)) as [s' ->]. discriminate.
      * rewrite Hoff by lia. discriminate.
Qed.

Lemma add_panics_iff_position_off_ring_witness :
  add {| alpha := 0.5; expMovingAvg := 0; values := []; position := 0;
         filled := false |} 1%float = Panic IndexOutOfRange.
Proof.
  apply (add_panics_iff_position_off_ring
           {| alpha := 0.5; expMovingAvg := 0; values := []; position := 0;
              filled := false |} 1%float); [vm_compute; discriminate | reflexivity].
Defined.

Lemma runningMean_of_single (v : float) :
  runningMean [runningMean [v]] = (0 + v)%float.
Proof.
  unfold runningMean. simpl. change (0 + 1)%float with 1%float. rewrite !div_one.
  destruct (add_zero_l (0 + v)%float) as [E|[E _]]; [exact E|].
  exfalso. destruct (add_zero_l v) as [E'|[_ E']]; rewrite E' in E.
  - subst v. discriminate E'.
  - discriminate E.
Qed.

Lemma movingAvg_effective (a r : float) (s0 s : sample) (vs : list float) :
  newSample a r = Ok s0 -> adds s0 vs = Ok s ->
  (length (values s0) = 0%nat -> movingAvg s = Ok 0%float) /\
  ((1 <= length (values s0))%nat ->
   movingAvg s =
   Ok (runningMean
         (map (fun i => runningMean
                          (subWindow (values s) i
                             (S (Nat.min (length vs) (length (values s0))) / 2)))
              (seq 0 (S (Nat.min (length vs) (length (values s0)) / 2)))))).
Proof.
  intros Hnew Hrun.
  destruct (ringAfter_adds a r s0 Hnew vs s Hrun) as ((Hl & Hpart & Hfull) & _ & Hmax).
  set (c := length (values s0)) in *. split.
  - intros Hc. unfold movingAvg, len. rewrite Hl, Hc. reflexivity.
  - intros Hc. apply movingAvg_buckets.
    + unfold len. lia.
    + unfold is_int, minInt, len in *. lia.
    + destruct (Nat.lt_ge_cases (length vs) c) as [Hlt|Hge].
      * destruct (Hpart Hlt) as (Hp & -> & _). rewrite Nat.min_l by lia. split; [exact Hp|lia].
      * destruct (Hfull (conj Hc Hge)) as (_ & -> & _). rewrite Nat.min_r by lia.
        now rewrite Hl.
Qed.

(** After any run of [add]s on a sample made by [newSample], [movingAvg]
    returns a value: no window leaves the ring.  With capacity 0 it is 0;
    otherwise it is the bucket average over the effective length, the
    smaller of the number of values added and the capacity. *)
Theorem movingAvg_after_adds (a r : float) (s0 s : sample) (vs : list float) :
  newSample a r = Ok s0 -> adds s0 vs = Ok s ->
  let e := Nat.min (length vs) (length (values s0)) in
  (exists x, movingAvg s = Ok x) /\
  (length (values s0) = 0%nat -> movingAvg s = Ok 0%float) /\
  ((1 <= length (values s0))%nat ->
   movingAvg s =
   Ok (runningMean
         (map (fun i => runningMean (subWindow (values s) i (S e / 2)))
              (seq 0 (S (e / 2)))))).
Proof.
  intros Hnew Hrun. cbv zeta.
  destruct (movingAvg_effective a r s0 s vs Hnew Hrun) as [H0 H1].
  split; [|split; [exact H0|exact H1]].
  destruct (length (values s0)) as [|c']; [rewrite H0 by reflexivity | rewrite H1 by lia];
    eexists; reflexivity.
Qed.

Lemma movingAvg_after_adds_witness :
  exists x,
    (s ← adds {| alpha := 0.5; expMovingAvg := 0; values := [0; 0; 0]%float;
                 position := 0; filled := false |} [1; 2]%float;
     movingAvg s) = Ok x.
Proof.
  destruct (movingAvg_after_adds 0.5 3
              {| alpha := 0.5; expMovingAvg := 0; values := [0; 0; 0]%float;
                 position := 0; filled := false |} _ [1; 2]%float eq_refl eq_refl)
    as [[x Hx] _].
  exists x. exact Hx.
Defined.

(** After the first [add] on a sample made by [newSample], whatever its
    capacity, [movingAvg] returns the value added ([+0] for [-0]): the
    first tick compares the bare rate with the threshold. *)
Theorem movingAvg_after_first_add (a r : float) (s0 s1 : sample) (v : float) :
  newSample a r = Ok s0 -> add s0 v = Ok s1 ->
  movingAvg s1 = Ok (0 + v)%float /\
  (movingAvg s1 = Ok v \/ (v = neg_zero /\ movingAvg s1 = Ok 0%float)).
Proof.
  intros Hnew Ha.
  assert (Hrun : adds s0 [v] = Ok s1) by (unfold adds; cbn [foldM]; now rewrite Ha).
  destruct (ringAfter_adds a r s0 Hnew [v] s1 Hrun) as ((Hl & Hpart & Hfull) & _ & _).
  assert (Hc : (1 <= length (values s0))%nat).
  { pose proof (add_inv _ _ _ Ha) as Hin. unfold len in Hin. lia. }
  assert (Htake : take 1 (values s1) = [v]).
  { cbn [length] in *. destruct (Nat.lt_ge_cases 1 (length (values s0))) as [Hlt|Hge].
    - destruct (Hpart Hlt) as (_ & _ & ->). reflexivity.
    - assert (H1 : length (values s0) = 1%nat) by lia. rewrite H1 in *.
      destruct (Hfull ltac:(lia)) as (_ & _ & Hrot).
      change (1 mod 1)%nat with 0%nat in Hrot.
      rewrite drop_0, take_0, app_nil_r in Hrot. now rewrite Hrot. }
  assert (Hm : movingAvg s1 = Ok (0 + v)%float).
  { destruct (movingAvg_effective a r s0 s1 [v] Hnew Hrun) as (_ & H1).
    rewrite (H1 Hc). cbn [length]. rewrite Nat.min_l by lia.
    change (seq 0 (S (1 / 2))) with [0%nat]. change (S 1 / 2)%nat with 1%nat.
    cbn [map]. unfold subWindow. rewrite drop_0, Htake.
    now rewrite runningMean_of_single. }
  split; [exact Hm|]. rewrite Hm.
  destruct (add_zero_l v) as [-> | [-> ->]]; [now left | now right].
Qed.

Lemma movingAvg_after_first_add_witness :
  exists s1,
    add {| alpha := 0.5; expMovingAvg := 0; values := [0; 0; 0]%float;
           position := 0; filled := false |} 42%float = Ok s1 /\
    movingAvg s1 = Ok (0 + 42)%float.
Proof.
  eexists. split; [reflexivity|].
  apply (movingAvg_after_first_add 0.5 3
           {| alpha := 0.5; expMovingAvg := 0; values := [0; 0; 0]%float;
              position := 0; filled := false |} _ 42%float eq_refl eq_refl).
Defined.

(** Once the ring is filled, [movingAvg] reads the slots in slot order and
    nothing else: two filled samples with the same slots get the same
    result, wherever [position] stands and whatever [alpha] and the
    exponential average are. *)
Theorem movingAvg_filled_ignores_position (s1 s2 : sample) :
  filled s1 = true -> filled s2 = true -> values s1 = values s2 ->
  len (values s1) <= maxInt ->
  movingAvg s1 = movingAvg s2 /\ exists x, movingAvg s1 = Ok x.
Proof.
  intros Hf1 Hf2 Hv Hmax.
  destruct (Z.eq_dec (len (values s1)) 0) as [H0|Hne].
  - unfold movingAvg. rewrite <- Hv, H0. split; [reflexivity|now eexists].
  - rewrite (movingAvg_buckets s1 (length (values s1))),
            (movingAvg_buckets s2 (length (values s1)));
      rewrite <- ?Hv, ?Hf1, ?Hf2; try reflexivity; try assumption;
      try (unfold is_int, minInt, len in *; lia).
    split; [reflexivity|now eexists].
Qed.

Lemma movingAvg_filled_ignores_position_witness :
  movingAvg {| alpha := 0.5; expMovingAvg := 3.125; values := [4; 2; 3]%float;
               position := 1; filled := true |}
  = movingAvg {| alpha := 0.25; expMovingAvg := 0; values := [4; 2; 3]%float;
                 position := 2; filled := true |}.
Proof.
  apply movingAvg_filled_ignores_position; try reflexivity.
  vm_compute. discriminate.
Defined.

(* ===================================================================== *)
(** * Further properties of the rate calculator *)

Lemma index_negative {A} (l : list A) (i : Z) : i < 0 -> index l i = Panic IndexOutOfRange.
Proof. intros H. unfold index. destruct (0 <=? i) eqn:E; [lia|reflexivity]. Qed.

(** [rate] panics exactly when [name] is below the length of [current]
    and is either negative or not below the length of [previous]; the panic
    is an index out of range, and [rate] fails in no other way. *)
Theorem rate_panics_iff (c : CPU) (name : Z) :
  (rate c name = Panic IndexOutOfRange <->
   name < len (current c) /\ (name < 0 \/ len (previous c) <= name)) /\
  (forall p, rate c name = Panic p -> p = IndexOutOfRange) /\
  rate c name <> Unspecified.
Proof.
  unfold rate. destruct (len (current c) <=? name) eqn:E.
  - split; [split; [discriminate|lia]|]. split; [discriminate|discriminate].
  - destruct (Z_lt_le_dec name 0) as [Hneg|Hnn].
    + rewrite (index_negative (current c) name Hneg). cbn [mbind outcome_bind].
      split; [split; [lia|reflexivity]|]. split; [now intros p [= <-]|discriminate].
    + destruct (index_in_range (current c) name ltac:(lia)) as [cur ->].
      cbn [mbind outcome_bind].
      destruct (Z_lt_le_dec name (len (previous c))) as [Hlt|Hge].
      * destruct (index_in_range (previous c) name ltac:(lia)) as [prev ->].
        cbn [mbind outcome_bind].
        destruct (int_sub (currentTotal c) (previousTotal c) =? 0);
          (split; [split; [discriminate|lia]|]; split; discriminate).
      * rewrite (index_out_of_range (previous c) name Hge). cbn [mbind outcome_bind].
        split; [split; [lia|reflexivity]|]. split; [now intros p [= <-]|discriminate].
Qed.

Lemma div_self_finite s m e :
  SF64div (S754_finite s m e) (S754_finite s m e) = S754_finite false 4503599627370496 (-52).
Proof.
  unfold SF64div, SFdiv, SFdiv_core_binary. rewrite xorb_nilpotent.
  cbn [Zdigits2]. set (d := Z.pos (digits2_pos m)).
  replace (d + e - (d + e)) with 0 by lia.
  replace (e - e) with 0 by lia.
  change (Z.min (fexp prec emax 0) 0) with (-53). change (0 - -53) with 53.
  rewrite Z.shiftl_mul_pow2 by lia.
  assert (E : Z.div_eucl (Z.pos m * 2 ^ 53) (Z.pos m) = (2 ^ 53, 0)).
  { pose proof (Z.div_mul (2 ^ 53) (Z.pos m) ltac:(lia)) as Hq.
    pose proof (Z.mod_mul (2 ^ 53) (Z.pos m) ltac:(lia)) as Hr.
    rewrite Z.mul_comm. unfold Z.div, Z.modulo in Hq, Hr.
    destruct (Z.div_eucl _ _) as [q r]. simpl in Hq, Hr. now subst. }
  rewrite E.
  assert (Hl : new_location (Z.pos m) 0 = loc_Exact).
  { unfold new_location, new_location_even, new_location_odd.
    now destruct (Z.even (Z.pos m)). }
  rewrite Hl. reflexivity.
Qed.

(** An integer of at most 53 bits that is not 0 converts to a finite
    double of its sign. *)
Lemma float64_small_finite (z : Z) :
  z <> 0 -> - 2 ^ 53 < z < 2 ^ 53 ->
  exists m e, Prim2SF (float64 z) = S754_finite (z <? 0) m e.
Proof.
  intros Hz Hb. rewrite float64_spec by (unfold is_int, minInt, maxInt; lia).
  destruct z as [|p|p]; [contradiction| |].
  - destruct (normalize_int (Z.pos p) ltac:(lia)) as (m & e & _ & _ & _ & ->).
    now exists m, e.
  - destruct (normalize_int (Z.pos p) ltac:(lia)) as (m & e & _ & _ & _ & H).
    cbn [binary_normalize] in *. rewrite (binary_round_opp false), H.
    now exists m, e.
Qed.

(** The two ends of the scale.  With both snapshots holding the category
    and the totals apart by less than 2^53: a category whose counter did
    not move reads a zero (of the sign of the total's move), and a category
    that took the whole move of the total reads exactly 100. *)
Theorem rate_zero_and_full (c : CPU) (category : nat) (cur prev : Z) :
  current c !! category = Some cur -> previous c !! category = Some prev ->
  currentTotal c <> previousTotal c ->
  - 2 ^ 53 < currentTotal c - previousTotal c < 2 ^ 53 ->
  (cur = prev ->
   rate c (Z.of_nat category)
   = Ok (if 0 <? currentTotal c - previousTotal c then 0%float else neg_zero)) /\
  (cur - prev = currentTotal c - previousTotal c ->
   rate c (Z.of_nat category) = Ok 100%float).
Proof.
  intros Hc Hp Hne Hb. set (t := currentTotal c - previousTotal c) in *.
  assert (Ht : int_sub (currentTotal c) (previousTotal c) = t)
    by (apply wrap_id; unfold is_int, minInt, maxInt; lia).
  assert (Hrate : forall d, int_sub cur prev = d ->
            rate c (Z.of_nat category) = Ok (float64 d / float64 t * 100)%float).
  { intros d Hd. unfold rate. pose proof (lookup_lt_Some _ _ _ Hc) as Hlt.
    destruct (len (current c) <=? Z.of_nat category) eqn:E; [unfold len in E; lia|].
    rewrite (index_lookup _ _ _ Hc), (index_lookup _ _ _ Hp). cbn [mbind outcome_bind].
    rewrite Ht, Hd. destruct (t =? 0) eqn:E0; [lia|reflexivity]. }
  destruct (float64_small_finite t ltac:(lia) Hb) as (m & e & Hf).
  split.
  - intros ->. rewrite (Hrate 0) by (unfold int_sub; now rewrite Z.sub_diag).
    f_equal. apply Prim2SF_inj. rewrite mul_spec, div_spec, Hf.
    change (Prim2SF (float64 0)) with (S754_zero false).
    destruct (0 <? t) eqn:E1; destruct (t <? 0) eqn:E2; try lia; reflexivity.
  - intros Hd. rewrite (Hrate t) by (unfold int_sub; rewrite Hd; apply wrap_id;
                                     unfold is_int, minInt, maxInt; lia).
    assert (H1 : (float64 t / float64 t)%float = 1%float).
    { apply Prim2SF_inj. rewrite div_spec, Hf. apply div_self_finite. }
    rewrite H1. reflexivity.
Qed.

Lemma rate_zero_and_full_witness :
  rate {| previous := [5; 1; 1; 1]; current := [12; 1; 1; 1]; currentTotal := 15;
          previousTotal := 8; averages := []; slackURL := "" |} 0 = Ok 100%float /\
  rate {| previous := [5; 1; 1; 1]; current := [12; 1; 1; 1]; currentTotal := 15;
          previousTotal := 8; averages := []; slackURL := "" |} 1 = Ok 0%float.
Proof.
  split.
  - apply (rate_zero_and_full
             {| previous := [5; 1; 1; 1]; current := [12; 1; 1; 1]; currentTotal := 15;
                previousTotal := 8; averages := []; slackURL := "" |} 0 12 5);
      try reflexivity; simpl; lia.
  - apply (rate_zero_and_full
             {| previous := [5; 1; 1; 1]; current := [12; 1; 1; 1]; currentTotal := 15;
                previousTotal := 8; averages := []; slackURL := "" |} 1 1 1);
      try reflexivity; simpl; lia.
Defined.

(* ===================================================================== *)
(** * Further properties of the constructor and of the sampling step *)

(** Where the ratio of the durations converts to an [int64] [n], [New]
    panics exactly when [n] is negative or [n] doubles exceed [maxAlloc]:
    in [make], with a length out of range, and in no other way.  For
    positive durations [n] is not negative, so that [New] then panics only
    for a ring beyond [maxAlloc].  An engine it returns has no snapshot
    yet, so that [rate] reads 0 for every category. *)
Theorem New_panics_iff_ring_length_out_of_range (cfg : Config) (n : Z) :
  int64 (Seconds (ReportingInterval cfg) / Seconds (SampleRate cfg)) = Ok n ->
  (New cfg = Panic MakeLenOutOfRange <-> n < 0 \/ maxAlloc < n * 8) /\
  (forall p, New cfg = Panic p -> p = MakeLenOutOfRange) /\
  (0 < SampleRate cfg <= maxInt -> 0 < ReportingInterval cfg <= maxInt -> 0 <= n) /\
  (forall c, New cfg = Ok c ->
     previous c = [] /\ current c = [] /\ slackURL c = SlackURL cfg /\
     forall name, 0 <= name -> rate c name = Ok 0%float).
Proof.
  intros Hn.
  assert (Hcases :
    New cfg =
    if (0 <=? n) && (n * 8 <=? maxAlloc)
    then Ok {| previous := []; current := []; currentTotal := 0; previousTotal := 0;
               averages :=
                 [ {| alpha := Seconds (SampleRate cfg) / Seconds (ReportingInterval cfg);
                      expMovingAvg := 0; values := replicate (Z.to_nat n) 0%float;
                      position := 0; filled := false |};
                   {| alpha := Seconds (SampleRate cfg) / Seconds (ReportingInterval cfg);
                      expMovingAvg := 0; values := [0%float];
                      position := 0; filled := false |};
                   {| alpha := Seconds (SampleRate cfg) / Seconds (ReportingInterval cfg);
                      expMovingAvg := 0; values := [0%float];
                      position := 0; filled := false |} ];
               slackURL := SlackURL cfg |}
    else Panic MakeLenOutOfRange).
  { unfold New. cbv zeta. rewrite (newSample_cases _ _ n Hn), !newSample_one.
    now destruct ((0 <=? n) && (n * 8 <=? maxAlloc)). }
  rewrite Hcases. split; [|split; [|split]].
  - destruct (0 <=? n) eqn:E1; destruct (n * 8 <=? maxAlloc) eqn:E2;
      cbn [andb]; split; try discriminate; try lia; reflexivity.
  - intros p. destruct ((0 <=? n) && (n * 8 <=? maxAlloc)); [discriminate|].
    now intros [= <-].
  - intros Hs Hr. apply int64_nonneg in Hn; [exact Hn|].
    rewrite div_spec. apply SFdiv_nonneg; apply Seconds_nonneg; lia.
  - intros c. destruct ((0 <=? n) && (n * 8 <=? maxAlloc)); [|discriminate].
    intros [= <-]. cbn [previous current slackURL]. do 3 (split; [reflexivity|]).
    intros name Hname. unfold rate. cbn [current]. change (len (@nil Z)) with 0.
    destruct (0 <=? name) eqn:E; [reflexivity|lia].
Qed.

Lemma New_panics_iff_ring_length_out_of_range_witness :
  New {| Threshold := 80; SampleRate := 1; ReportingInterval := 40000000000000;
         SlackURL := ""; SlackInterval := 0; Hostname := "host" |}
  = Panic MakeLenOutOfRange.
Proof.
  destruct (New_panics_iff_ring_length_out_of_range
              {| Threshold := 80; SampleRate := 1; ReportingInterval := 40000000000000;
                 SlackURL := ""; SlackInterval := 0; Hostname := "host" |}
              40000000000000) as [[_ H] _]; [vm_compute; reflexivity|].
  apply H. right. vm_compute. reflexivity.
Defined.

Lemma index_cases {A} (l : list A) (i : Z) :
  (exists x, index l i = Ok x) \/ index l i = Panic IndexOutOfRange.
Proof.
  unfold index. destruct (_ && _); [|now right].
  destruct (l !! Z.to_nat i) as [x|]; [left; now exists x|now right].
Qed.

Lemma rate_cases (c : CPU) (name : Z) :
  (exists r, rate c name = Ok r) \/ rate c name = Panic IndexOutOfRange.
Proof.
  unfold rate. destruct (len (current c) <=? name); [left; now eexists|].
  destruct (index_cases (current c) name) as [[cur ->]| ->]; [|now right].
  cbn [mbind outcome_bind].
  destruct (index_cases (previous c) name) as [[prev ->]| ->]; [|now right].
  cbn [mbind outcome_bind]. left. destruct (_ =? 0); now eexists.
Qed.

Lemma add_empty (s : sample) (v : float) :
  len (values s) = 0 -> add s v = Panic IndexOutOfRange.
Proof.
  intros H. unfold add, store. rewrite H.
  destruct (0 <=? position s) eqn:E1; [|reflexivity].
  destruct (position s <? 0) eqn:E2; [lia|reflexivity].
Qed.

(** When the user ring has capacity 0, as [New] makes it for a sample rate
    of 5 s and a reporting interval of 2 s, the sampling step of every tick
    panics with an index out of range, whatever the snapshots hold. *)
Theorem sampleStep_panics_on_empty_user_ring (c : CPU) (u : sample)
    (rest : list sample) :
  averages c = u :: rest -> len (values u) = 0 ->
  sampleStep c = Panic IndexOutOfRange.
Proof.
  intros Hav H0.
  assert (Hfeed : feed c (u :: rest) userGauge = Panic IndexOutOfRange).
  { unfold feed. change (index (u :: rest) userGauge) with (Ok u).
    cbn [mbind outcome_bind].
    destruct (rate_cases c userGauge) as [[r0 ->]| ->]; cbn [mbind outcome_bind];
      [|reflexivity].
    now rewrite (add_empty u r0 H0). }
  unfold sampleStep. rewrite Hav. cbn [foldM]. now rewrite Hfeed.
Qed.

Lemma sampleStep_panics_on_empty_user_ring_witness :
  exists c,
    New {| Threshold := 80; SampleRate := 5000000000; ReportingInterval := 2000000000;
           SlackURL := ""; SlackInterval := 0; Hostname := "host" |} = Ok c /\
    sampleStep c = Panic IndexOutOfRange.
Proof.
  eexists. split; [reflexivity|].
  eapply sampleStep_panics_on_empty_user_ring; reflexivity.
Defined.

Lemma feed_inv (c : CPU) (avs avs' : list sample) (i : Z) :
  feed c avs i = Ok avs' ->
  exists s r s', index avs i = Ok s /\ rate c i = Ok r /\ add s r = Ok s' /\
                 store avs i s' = Ok avs'.
Proof.
  unfold feed. destruct (index avs i) as [s| |] eqn:E1; try discriminate.
  cbn [mbind outcome_bind]. destruct (rate c i) as [r| |] eqn:E2; try discriminate.
  cbn [mbind outcome_bind]. destruct (add s r) as [s'| |] eqn:E3; try discriminate.
  cbn [mbind outcome_bind]. intros H. exists s, r, s'.
  split; [reflexivity|]. split; [reflexivity|]. split; [exact E3|exact H].
Qed.

Lemma feed_ok (c : CPU) (avs : list sample) (i : Z) (s s' : sample) (r : float) :
  index avs i = Ok s -> rate c i = Ok r -> add s r = Ok s' ->
  feed c avs i = store avs i s'.
Proof.
  intros H1 H2 H3. unfold feed. rewrite H1. cbn [mbind outcome_bind].
  rewrite H2. cbn [mbind outcome_bind]. rewrite H3. reflexivity.
Qed.

(** A sampling step that succeeds has left the snapshots and the notifier's
    address alone, has added to each of the three samples the rate of its
    own category, and returns the moving average of the user sample after
    that [add]. *)
Theorem sampleStep_feeds_each_category (c c' : CPU) (u s i : sample) (avg : float) :
  averages c = [u; s; i] -> sampleStep c = Ok (c', avg) ->
  exists r0 r1 r2 u' s' i',
    rate c userGauge = Ok r0 /\ rate c systemGauge = Ok r1 /\
    rate c idleGauge = Ok r2 /\
    add u r0 = Ok u' /\ add s r1 = Ok s' /\ add i r2 = Ok i' /\
    averages c' = [u'; s'; i'] /\ movingAvg u' = Ok avg /\
    previous c' = previous c /\ current c' = current c /\
    previousTotal c' = previousTotal c /\ currentTotal c' = currentTotal c /\
    slackURL c' = slackURL c.
Proof.
  intros Hav Hstep. unfold sampleStep in Hstep. rewrite Hav in Hstep.
  cbn [foldM] in Hstep.
  destruct (feed c [u; s; i] userGauge) as [a1| |] eqn:E1; try discriminate.
  cbn [mbind outcome_bind] in Hstep.
  destruct (feed c a1 systemGauge) as [a2| |] eqn:E2; try discriminate.
  cbn [mbind outcome_bind] in Hstep.
  destruct (feed c a2 idleGauge) as [a3| |] eqn:E3; try discriminate.
  cbn [mbind outcome_bind] in Hstep.
  destruct (feed_inv _ _ _ _ E1) as (x0 & r0 & u' & Hi0 & Hr0 & Ha0 & Hs0).
  change (index [u; s; i] userGauge) with (Ok u) in Hi0. injection Hi0 as <-.
  change (store [u; s; i] userGauge u') with (Ok [u'; s; i]) in Hs0.
  injection Hs0 as <-.
  destruct (feed_inv _ _ _ _ E2) as (x1 & r1 & s' & Hi1 & Hr1 & Ha1 & Hs1).
  change (index [u'; s; i] systemGauge) with (Ok s) in Hi1. injection Hi1 as <-.
  change (store [u'; s; i] systemGauge s') with (Ok [u'; s'; i]) in Hs1.
  injection Hs1 as <-.
  destruct (feed_inv _ _ _ _ E3) as (x2 & r2 & i' & Hi2 & Hr2 & Ha2 & Hs2).
  change (index [u'; s'; i] idleGauge) with (Ok i) in Hi2. injection Hi2 as <-.
  change (store [u'; s'; i] idleGauge i') with (Ok [u'; s'; i']) in Hs2.
  injection Hs2 as <-.
  change (index [u'; s'; i'] userGauge) with (Ok u') in Hstep.
  cbn [mbind outcome_bind] in Hstep.
  destruct (movingAvg u') as [x| |] eqn:Em; try discriminate.
  cbn [mbind outcome_bind] in Hstep. injection Hstep as <- <-.
  exists r0, r1, r2, u', s', i'. now repeat split.
Qed.

Lemma sampleStep_feeds_each_category_witness :
  exists c' avg,
    sampleStep {| previous := [0; 1; 1; 1]; current := [1; 2; 3; 4];
                  currentTotal := 10; previousTotal := 3;
                  averages := [ {| alpha := 0.5; expMovingAvg := 0; values := [0; 0]%float;
                                   position := 0; filled := false |};
                                {| alpha := 0.5; expMovingAvg := 0; values := [0%float];
                                   position := 0; filled := false |};
                                {| alpha := 0.5; expMovingAvg := 0; values := [0%float];
                                   position := 0; filled := false |} ];
                  slackURL := "" |} = Ok (c', avg) /\
    previous c' = [0; 1; 1; 1] /\ current c' = [1; 2; 3; 4].
Proof.
  do 2 eexists. split; [reflexivity|].
  edestruct (sampleStep_feeds_each_category
               {| previous := [0; 1; 1; 1]; current := [1; 2; 3; 4];
                  currentTotal := 10; previousTotal := 3;
                  averages := [ {| alpha := 0.5; expMovingAvg := 0; values := [0; 0]%float;
                                   position := 0; filled := false |};
                                {| alpha := 0.5; expMovingAvg := 0; values := [0%float];
                                   position := 0; filled := false |};
                                {| alpha := 0.5; expMovingAvg := 0; values := [0%float];
                                   position := 0; filled := false |} ];
                  slackURL := "" |})
    as (r0 & r1 & r2 & u' & s' & i' & _ & _ & _ & _ & _ & _ & _ & _ & Hp & Hc & _);
    [reflexivity | reflexivity |].
  split; [exact Hp | exact Hc].
Defined.

Lemma movingAvg_in_ring (s : sample) : in_ring s -> exists x, movingAvg s = Ok x.
Proof.
  intros [Hpos Hmax].
  destruct (filled s) eqn:Hf.
  - rewrite (movingAvg_buckets s (length (values s))); [now eexists|lia| |now rewrite Hf].
    unfold is_int, minInt, len in *. lia.
  - rewrite (movingAvg_buckets s (Z.to_nat (position s))); [now eexists|lia| |].
    + unfold is_int, minInt, len in *. lia.
    + rewrite Hf. unfold len in *. split; lia.
Qed.

(** After [clear], as after a collection that failed, the sampling step
    still goes through when every sample stands on a slot of its ring: it
    adds a rate of 0 to each of the three samples and returns the moving
    average of the user sample. *)
Theorem sampleStep_after_clear_feeds_zeros (c : CPU) (u s i : sample) :
  averages c = [u; s; i] -> in_ring u -> in_ring s -> in_ring i ->
  exists u' s' i' avg,
    add u 0%float = Ok u' /\ add s 0%float = Ok s' /\ add i 0%float = Ok i' /\
    movingAvg u' = Ok avg /\
    sampleStep (clear c)
    = Ok ({| previous := []; current := []; currentTotal := 0; previousTotal := 0;
             averages := [u'; s'; i']; slackURL := slackURL c |}, avg).
Proof.
  intros Hav Hu Hs Hi.
  destruct (add_ok u 0%float Hu) as (u' & Hau & _ & _ & _ & _ & _ & Hru).
  destruct (add_ok s 0%float Hs) as (s' & Has & _).
  destruct (add_ok i 0%float Hi) as (i' & Hai & _).
  destruct (movingAvg_in_ring u' Hru) as [avg Havg].
  exists u', s', i', avg. do 4 (split; [assumption|]).
  assert (Hrate : forall name, 0 <= name -> rate (clear c) name = Ok 0%float).
  { intros name H. unfold rate, clear. cbn [current]. change (len (@nil Z)) with 0.
    destruct (0 <=? name) eqn:E; [reflexivity|lia]. }
  unfold sampleStep. change (averages (clear c)) with (averages c). rewrite Hav.
  cbn [foldM].
  rewrite (feed_ok (clear c) [u; s; i] userGauge u u' 0%float eq_refl
             (Hrate userGauge ltac:(vm_compute; discriminate)) Hau).
  change (store [u; s; i] userGauge u') with (Ok [u'; s; i]). cbn [mbind outcome_bind].
  rewrite (feed_ok (clear c) [u'; s; i] systemGauge s s' 0%float eq_refl
             (Hrate systemGauge ltac:(vm_compute; discriminate)) Has).
  change (store [u'; s; i] systemGauge s') with (Ok [u'; s'; i]). cbn [mbind outcome_bind].
  rewrite (feed_ok (clear c) [u'; s'; i] idleGauge i i' 0%float eq_refl
             (Hrate idleGauge ltac:(vm_compute; discriminate)) Hai).
  change (store [u'; s'; i] idleGauge i') with (Ok [u'; s'; i']). cbn [mbind outcome_bind].
  change (index [u'; s'; i'] userGauge) with (Ok u'). cbn [mbind outcome_bind].
  rewrite Havg. reflexivity.
Qed.

Lemma sampleStep_after_clear_feeds_zeros_witness :
  exists c' avg,
    sampleStep (clear {| previous := [0; 1; 1; 1]; current := [1; 2; 3; 4];
                         currentTotal := 10; previousTotal := 3;
                         averages := [ {| alpha := 0.5; expMovingAvg := 8;
                                          values := [8; 0]%float;
                                          position := 1; filled := false |};
                                       {| alpha := 0.5; expMovingAvg := 0;
                                          values := [0%float];
                                          position := 0; filled := false |};
                                       {| alpha := 0.5; expMovingAvg := 0;
                                          values := [0%float];
                                          position := 0; filled := false |} ];
                         slackURL := "" |}) = Ok (c', avg).
Proof.
  edestruct (sampleStep_after_clear_feeds_zeros
               {| previous := [0; 1; 1; 1]; current := [1; 2; 3; 4];
                  currentTotal := 10; previousTotal := 3;
                  averages := [ {| alpha := 0.5; expMovingAvg := 8;
                                   values := [8; 0]%float;
                                   position := 1; filled := false |};
                                {| alpha := 0.5; expMovingAvg := 0;
                                   values := [0%float];
                                   position := 0; filled := false |};
                                {| alpha := 0.5; expMovingAvg := 0;
                                   values := [0%float];
                                   position := 0; filled := false |} ];
                  slackURL := "" |})
    as (u' & s' & i' & avg & _ & _ & _ & _ & Hstep);
    [reflexivity | vm_compute; repeat split; discriminate ..|].
  do 2 eexists. exact Hstep.
Defined.

(** The exponential average does not depend on the ring: two samples made
    by [newSample] with the same [alpha] and any two capacities, fed the
    same values, hold the same exponential average, with no value yet 0 and
    else [emaOf] of the values. *)
Theorem ema_ignores_capacity (a r1 r2 : float) (s1 s2 s1' s2' : sample)
    (vs : list float) :
  newSample a r1 = Ok s1 -> newSample a r2 = Ok s2 ->
  adds s1 vs = Ok s1' -> adds s2 vs = Ok s2' ->
  expMovingAvg s1' = expMovingAvg s2' /\
  expMovingAvg s1' = match vs with
                     | [] => 0%float
                     | v0 :: rest => emaOf a v0 rest
                     end.
Proof.
  intros Hn1 Hn2 Hr1 Hr2.
  assert (Hema : forall r s0 s', newSample a r = Ok s0 -> adds s0 vs = Ok s' ->
            expMovingAvg s' = match vs with
                              | [] => 0%float
                              | v0 :: rest => emaOf a v0 rest
                              end).
  { intros r s0 s' Hn Hr. destruct (newSample_inv a r s0 Hn) as (n & _ & Hn' & ->).
    destruct vs as [|v0 rest]; [now injection Hr as <-|].
    set (s0 := {| alpha := a; expMovingAvg := 0%float;
                  values := replicate (Z.to_nat n) 0%float;
                  position := 0; filled := false |}) in *.
    assert (Hring : in_ring s0).
    { unfold adds in Hr. cbn [foldM] in Hr.
      destruct (add s0 v0) as [x| |] eqn:Ea; try discriminate.
      split; [apply (add_inv s0 x v0 Ea)|].
      unfold s0, len. cbn [values]. rewrite length_replicate. lia. }
    destruct (adds_ok rest s0 v0 Hring) as (s'' & Hrun & _ & _ & _ & He).
    rewrite Hr in Hrun. injection Hrun as <-. exact He. }
  split; [|apply (Hema r1 s1 s1' Hn1 Hr1)].
  rewrite (Hema r1 s1 s1' Hn1 Hr1), (Hema r2 s2 s2' Hn2 Hr2). reflexivity.
Qed.

Lemma ema_ignores_capacity_witness :
  expMovingAvg {| alpha := 0.5; expMovingAvg := 3.125; values := [4%float];
                  position := 0; filled := true |}
  = expMovingAvg {| alpha := 0.5; expMovingAvg := 3.125; values := [4; 2; 3]%float;
                    position := 1; filled := true |}.
Proof.
  apply (ema_ignores_capacity 0.5 1 3
           {| alpha := 0.5; expMovingAvg := 0; values := [0%float];
              position := 0; filled := false |}
           {| alpha := 0.5; expMovingAvg := 0; values := [0; 0; 0]%float;
              position := 0; filled := false |}
           {| alpha := 0.5; expMovingAvg := 3.125; values := [4%float];
              position := 0; filled := true |}
           {| alpha := 0.5; expMovingAvg := 3.125; values := [4; 2; 3]%float;
              position := 1; filled := true |}
           [1; 2; 3; 4]%float); vm_compute; reflexivity.
Defined.

(* ===================================================================== *)
(** * Properties of package [system] *)

Section SystemCollect.
Variable ParseFloat : string -> float.
Variable scanLines : string -> list string.

Local Abbreviation pull := (System.pullFloat64 ParseFloat).
Local Abbreviation splitRuns := System.splitRuns.
Local Abbreviation Split := System.Split.
Local Abbreviation hasSpace := System.hasSpace.
Local Abbreviation spaces := System.spaces.
Local Abbreviation space := System.space.

Lemma splitRuns_nonempty (s : string) : forall b, splitRuns b s <> [].
Proof.
  induction s as [|c s IH]; intros b; cbn [System.splitRuns]; [discriminate|].
  destruct (Ascii.eqb c _); [destruct b; [apply IH|discriminate]|].
  destruct (splitRuns false s); discriminate.
Qed.

Lemma Split_one_piece (s : string) :
  hasSpace s = false -> Split s = [s].
Proof.
  unfold System.Split. induction s as [|c s IH]; cbn [System.splitRuns System.hasSpace]; [reflexivity|].
  destruct (Ascii.eqb c _); [discriminate|]. cbn [orb]. intros H.
  now rewrite (IH H).
Qed.

Lemma Split_two_pieces (s : string) :
  hasSpace s = true -> exists p f rest, Split s = p :: f :: rest.
Proof.
  unfold System.Split. induction s as [|c s IH]; cbn [System.splitRuns System.hasSpace]; [discriminate|].
  destruct (Ascii.eqb c _).
  - intros _. destruct (splitRuns true s) as [|f rest] eqn:E.
    + now apply splitRuns_nonempty in E.
    + now exists EmptyString, f, rest.
  - cbn [orb]. intros H. destruct (IH H) as (p & f & rest & ->).
    now exists (String c p), f, rest.
Qed.

Lemma index_second {A} (p f : A) (rest : list A) : index (p :: f :: rest) 1 = Ok f.
Proof.
  exact (index_lookup (p :: f :: rest) 1 f eq_refl).
Qed.

(** [pullFloat64] panics, with an index out of range, exactly on the
    strings that hold no space; on every other string it returns what
    [ParseFloat] makes of the second of the substrings the runs of spaces
    separate. *)
Theorem pullFloat64_panics_iff_no_space (str : string) :
  (pull str = Panic IndexOutOfRange <-> hasSpace str = false) /\
  (hasSpace str = true ->
   exists p f rest, Split str = p :: f :: rest /\ pull str = Ok (ParseFloat f)).
Proof.
  unfold System.pullFloat64. destruct (hasSpace str) eqn:E.
  - destruct (Split_two_pieces str E) as (p & f & rest & Hs).
    rewrite Hs, index_second. cbn [mbind outcome_bind].
    split; [split; discriminate|]. intros _. now exists p, f, rest.
  - rewrite (Split_one_piece str E).
    split; [split; reflexivity|discriminate].
Qed.

Lemma append_empty_r (s : string) : (s ++ EmptyString)%string = s.
Proof. induction s as [|c s IH]; [reflexivity|]. cbn. now rewrite IH. Qed.

Lemma splitRuns_word (key s : string) :
  hasSpace key = false ->
  exists p ps, splitRuns false s = p :: ps /\
               splitRuns false (key ++ s)%string = (key ++ p)%string :: ps.
Proof.
  intros Hk. induction key as [|c key IH].
  - destruct (splitRuns false s) as [|p ps] eqn:E; [now apply splitRuns_nonempty in E|].
    exists p, ps. split; [reflexivity|exact E].
  - cbn [System.hasSpace] in Hk. destruct (Ascii.eqb c _) eqn:Ec; [discriminate|].
    destruct (IH Hk) as (p & ps & Hs & Hks). exists p, ps. split; [exact Hs|].
    cbn [append System.splitRuns]. now rewrite Ec, Hks.
Qed.

Lemma splitRuns_skip (k : nat) (s : string) :
  splitRuns true (spaces k ++ s)%string = splitRuns true s.
Proof. induction k as [|k IH]; [reflexivity|]. cbn. exact IH. Qed.

(** On a line made of a name, one or more spaces, a figure and then the end
    of the line or a space, [pullFloat64] returns what [ParseFloat] makes of
    the figure: of [16384] in [MemTotal:       16384 kB]. *)
Theorem pullFloat64_reads_second_field (key num tail : string) (k : nat) :
  hasSpace key = false -> hasSpace num = false -> num <> EmptyString ->
  (tail = EmptyString \/ exists t, tail = String space t) ->
  pull (key ++ String space (spaces k) ++ num ++ tail)%string = Ok (ParseFloat num).
Proof.
  intros Hk Hn Hne Ht.
  assert (Htail : exists ps, splitRuns false tail = EmptyString :: ps).
  { destruct Ht as [-> | [t ->]]; [now exists []|]. cbn. now eexists. }
  destruct Htail as [ps Hps].
  destruct (splitRuns_word num tail Hn) as (p & ps' & Hs & Hnum).
  rewrite Hps in Hs. injection Hs as <- <-. rewrite append_empty_r in Hnum.
  assert (Hrun : splitRuns true (num ++ tail)%string = num :: ps).
  { destruct num as [|c num']; [contradiction|].
    cbn [System.hasSpace] in Hn. destruct (Ascii.eqb c _) eqn:Ec; [discriminate|].
    cbn [append System.splitRuns] in *. now rewrite Ec in *. }
  destruct (splitRuns_word key (String space (spaces k) ++ num ++ tail)%string Hk)
    as (p & ps' & Hs & Hkey).
  change (String space (spaces k) ++ num ++ tail)%string
    with (String space (spaces k ++ num ++ tail))%string in Hs.
  cbn [System.splitRuns] in Hs. change (Ascii.eqb space _) with true in Hs.
  rewrite splitRuns_skip, Hrun in Hs. injection Hs as <- <-.
  unfold System.pullFloat64, System.Split. rewrite Hkey, index_second. reflexivity.
Qed.

Local Abbreviation scanLine := (System.scanLine ParseFloat).
Local Abbreviation collect := (System.collect ParseFloat scanLines).

Lemma pull_cases (l : string) :
  (hasSpace l = false /\ pull l = Panic IndexOutOfRange) \/
  (hasSpace l = true /\ exists v, pull l = Ok v).
Proof.
  unfold System.pullFloat64. destruct (hasSpace l) eqn:E.
  - right. split; [reflexivity|].
    destruct (Split_two_pieces l E) as (p & f & rest & ->).
    rewrite index_second. now eexists.
  - left. split; [reflexivity|]. now rewrite (Split_one_piece l E).
Qed.

(** A line the scan wants and that holds no space stops the scan. *)
Lemma scanLine_panic (st : System.memStats) (l : string) :
  System.wanted l = true -> hasSpace l = false ->
  scanLine st l = Panic IndexOutOfRange.
Proof.
  intros Hw Hs. unfold System.scanLine, System.wanted in *.
  destruct (pull_cases l) as [[_ Hp]|[Hs' _]]; [|congruence]. rewrite Hp.
  repeat (destruct (String.prefix _ l); [reflexivity|]). discriminate.
Qed.

(** Any other line goes through, and keeps the two totals unless it names
    them. *)
Lemma scanLine_ok (st : System.memStats) (l : string) :
  (System.wanted l = true -> hasSpace l = true) ->
  exists st', scanLine st l = Ok st' /\
    (String.prefix "MemTotal" l = false ->
     System.mem_total st' = System.mem_total st) /\
    (String.prefix "SwapTotal" l = false ->
     System.swap_total st' = System.swap_total st).
Proof.
  intros Hw. unfold System.scanLine, System.wanted in *.
  destruct (pull_cases l) as [[Hs Hp]|[Hs [v Hp]]].
  - rewrite Hs in Hw.
    repeat (destruct (String.prefix _ l); [now specialize (Hw eq_refl)|]).
    eexists. now repeat split.
  - rewrite Hp. cbn [mbind outcome_bind].
    repeat (destruct (String.prefix _ l);
            [eexists; split; [reflexivity|]; split; intros H; try discriminate; reflexivity|]).
    eexists. now repeat split.
Qed.

Lemma scan_ok (lines : list string) : forall st : System.memStats,
  Forall (fun l => System.wanted l = true -> hasSpace l = true) lines ->
  exists st', foldM scanLine lines st = Ok st' /\
    (Forall (fun l => String.prefix "MemTotal" l = false) lines ->
     System.mem_total st' = System.mem_total st) /\
    (Forall (fun l => String.prefix "SwapTotal" l = false) lines ->
     System.swap_total st' = System.swap_total st).
Proof.
  induction lines as [|l lines IH]; intros st Hall.
  - exists st. now repeat split.
  - apply Forall_cons_1 in Hall as [Hl Hrest].
    destruct (scanLine_ok st l Hl) as (st1 & Hs & Hm & Hw).
    destruct (IH st1 Hrest) as (st' & Hrun & Hm' & Hw').
    exists st'. cbn [foldM]. rewrite Hs. cbn [mbind outcome_bind].
    split; [exact Hrun|]. split; intros Hno; apply Forall_cons_1 in Hno as [H1 H2].
    + rewrite (Hm' H2). exact (Hm H1).
    + rewrite (Hw' H2). exact (Hw H1).
Qed.

Lemma scan_panic (lines : list string) : forall st : System.memStats,
  Exists (fun l => System.wanted l = true /\ hasSpace l = false) lines ->
  foldM scanLine lines st = Panic IndexOutOfRange.
Proof.
  induction lines as [|l lines IH]; intros st Hex; [now apply Exists_nil in Hex|].
  cbn [foldM].
  destruct (bool_decide (System.wanted l = true /\ hasSpace l = false)) eqn:Ed.
  - apply bool_decide_eq_true in Ed as [Hw Hs]. now rewrite (scanLine_panic st l Hw Hs).
  - apply bool_decide_eq_false in Ed.
    apply Exists_cons in Hex as [Hbad|Hrest]; [contradiction|].
    destruct (scanLine_ok st l) as (st1 & -> & _).
    { intros Hw. destruct (hasSpace l) eqn:Hs; [reflexivity|]. exfalso. now apply Ed. }
    cbn [mbind outcome_bind]. apply IH, Hrest.
Qed.

Lemma scan_decide (lines : list string) :
  Forall (fun l => System.wanted l = true -> hasSpace l = true) lines \/
  Exists (fun l => System.wanted l = true /\ hasSpace l = false) lines.
Proof.
  induction lines as [|l lines [IH|IH]].
  - left. apply Forall_nil_2.
  - destruct (System.wanted l) eqn:Hw; destruct (hasSpace l) eqn:Hs.
    + left. apply Forall_cons_2; [now rewrite Hs|exact IH].
    + right. apply Exists_cons_hd. now rewrite Hw, Hs.
    + left. apply Forall_cons_2; [now rewrite Hw|exact IH].
    + left. apply Forall_cons_2; [now rewrite Hw|exact IH].
  - right. now apply Exists_cons_tl.
Qed.

(** A collection that did not panic has made three updates, in the order
    load average, memory usage, swap usage; the load average is what
    [ParseFloat] makes of the text before the first space of /proc/loadavg;
    and a usage reads 0, with no division, when no line names its total. *)
Theorem collect_reads_zero_without_total (loadavg meminfo : option string) :
  System.recovered (collect loadavg meminfo) = false ->
  exists data info m sw,
    loadavg = Some data /\ meminfo = Some info /\
    System.updates (collect loadavg meminfo)
    = [(System.loadAvgGauge, ParseFloat (System.firstField data));
       (System.memUsageGauge, m); (System.swapUsageGauge, sw)] /\
    (Forall (fun l => String.prefix "MemTotal" l = false) (scanLines info) ->
     m = 0%float) /\
    (Forall (fun l => String.prefix "SwapTotal" l = false) (scanLines info) ->
     sw = 0%float).
Proof.
  unfold System.collect. destruct loadavg as [data|]; [|discriminate].
  destruct meminfo as [info|]; [|discriminate].
  destruct (scan_decide (scanLines info)) as [Hok|Hbad].
  - destruct (scan_ok (scanLines info) System.noStats Hok) as (st & Hrun & Hm & Hw).
    rewrite Hrun. intros _. unfold System.usageUpdates. cbn [System.updates].
    do 4 eexists. split; [reflexivity|]. split; [reflexivity|]. split; [reflexivity|].
    split; intros Hno.
    + rewrite (Hm Hno). reflexivity.
    + rewrite (Hw Hno). reflexivity.
  - rewrite (scan_panic (scanLines info) System.noStats Hbad). discriminate.
Qed.

(** A collection panics, and is recovered and cleared, exactly when
    /proc/loadavg cannot be read, or /proc/meminfo cannot, or one of its
    lines starts with one of the six names and holds no space; by then it
    has updated the load average gauge at most. *)
Theorem collect_recovers_iff (loadavg meminfo : option string) :
  (System.recovered (collect loadavg meminfo) = true <->
   loadavg = None \/ meminfo = None \/
   exists info, meminfo = Some info /\
     Exists (fun l => System.wanted l = true /\ hasSpace l = false) (scanLines info)) /\
  (System.recovered (collect loadavg meminfo) = true ->
   System.updates (collect loadavg meminfo)
   = match loadavg with
     | None => []
     | Some data => [(System.loadAvgGauge, ParseFloat (System.firstField data))]
     end).
Proof.
  unfold System.collect. destruct loadavg as [data|].
  2: { split; [split; [now left|reflexivity]|reflexivity]. }
  destruct meminfo as [info|].
  2: { split; [split; [right; now left|reflexivity]|reflexivity]. }
  destruct (scan_decide (scanLines info)) as [Hok|Hbad].
  - destruct (scan_ok (scanLines info) System.noStats Hok) as (st & -> & _).
    cbn [System.recovered]. split; [|discriminate]. split; [discriminate|].
    intros [H|[H|(info' & [= <-] & Hex)]]; try discriminate.
    exfalso. apply Exists_exists in Hex as (l & Hin & Hw & Hs).
    rewrite Forall_forall in Hok. specialize (Hok l Hin Hw). congruence.
  - rewrite (scan_panic (scanLines info) System.noStats Hbad).
    cbn [System.recovered System.updates]. split; [|reflexivity].
    split; [|reflexivity]. intros _. right. right. now exists info.
Qed.
End SystemCollect.

Lemma pullFloat64_reads_second_field_witness :
  System.pullFloat64 (fun _ => 2%float) "MemTotal:       16384 kB"%string = Ok 2%float.
Proof.
  apply (pullFloat64_reads_second_field (fun _ => 2%float)
           "MemTotal:"%string "16384"%string " kB"%string 6);
    [reflexivity | reflexivity | discriminate
    | right; exists "kB"%string; reflexivity].
Defined.

Lemma collect_reads_zero_without_total_witness :
  System.updates
    (System.collect (fun _ => 2%float) (fun info => [info])
       (Some "0.52 0.58 0.59 1/467 12345"%string) (Some "MemFree:   1 kB"%string))
  = [(System.loadAvgGauge, 2%float); (System.memUsageGauge, 0%float);
     (System.swapUsageGauge, 0%float)].
Proof.
  destruct (collect_reads_zero_without_total (fun _ => 2%float) (fun info => [info])
              (Some "0.52 0.58 0.59 1/467 12345"%string)
              (Some "MemFree:   1 kB"%string) eq_refl)
    as (data & info & m & sw & Hd & Hi & Hup & Hm & Hsw).
  injection Hi as <-. rewrite Hup.
  rewrite Hm by (apply Forall_cons_2; [reflexivity|apply Forall_nil_2]).
  rewrite Hsw by (apply Forall_cons_2; [reflexivity|apply Forall_nil_2]).
  reflexivity.
Defined.
